(** * Pnyx vector store: chunking, full refresh and similarity search

    A shallow embedding of [backend/app/vector_store.py] (with the table
    definition of [backend/setup_vector_table.py]) and the properties of
    its three operations: [chunk_transcript], [store_meeting_embeddings]
    and [search_context].

    Conventions of the embedding.
    - Python [int] is [Z]; Python [str] is [string], read as a sequence of
      code points below 256, so [len] is [String.length].
    - Slicing and [str.rfind] follow CPython's index adjustment, negative
      indices included.
    - The [while] loop of [chunk_transcript] is run with fuel; [None]
      means the fuel ran out before the loop condition became false.
    - PostgreSQL is an explicit table state; a connection carries the
      durable tables and the view of the running transaction.  A storage
      fault is injected by naming the round trip that raises: connect,
      BEGIN, each statement, COMMIT, close.
    - The embedding model and pgvector's cosine distance operator are
      parameters of the development.

    Two more parts of the backend are embedded in modules of their own:
    [get_current_user] and [verify_google_token] of [app/auth.py]
    ([Auth]), with the key fetch, [jwt.decode] and the [User] model as
    parameters, and the data loop of [migrate] in [migrate_to_neon.py]
    ([Migrate]), with SQLite as a table of result sets and Postgres as the
    list of inserts pending in the open transaction. *)

From Stdlib Require Import ZArith QArith Bool List String Ascii Lia.
From Stdlib Require Import Permutation Sorted.
Import ListNotations.

Local Open Scope string_scope.
Local Open Scope list_scope.
Local Open Scope Z_scope.

(** ** Python string primitives *)

Module Py.

(** [len(s)]. *)
Definition len (s : string) : Z := Z.of_nat (String.length s).

(** Index adjustment shared by slicing and [rfind]: a negative index counts
    from the end, and the result is clamped to [0 .. n]. *)
Definition adjust (n i : Z) : Z :=
  if i <? 0 then Z.max 0 (i + n) else Z.min i n.

(** [s[a:b]]. *)
Definition slice (s : string) (a b : Z) : string :=
  let a' := adjust (len s) a in
  let b' := adjust (len s) b in
  if a' <? b' then substring (Z.to_nat a') (Z.to_nat (b' - a')) s else "".

(** Does [sub] occur in [s] at offset [i]? *)
Definition occurs_at (s sub : string) (i : Z) : bool :=
  String.eqb (substring (Z.to_nat i) (String.length sub) s) sub.

(** Highest offset among [lo], ..., [lo + k - 1] where [sub] occurs. *)
Fixpoint rfind_from (s sub : string) (lo : Z) (k : nat) : Z :=
  match k with
  | O => -1
  | S k' =>
      if occurs_at s sub (lo + Z.of_nat k') then lo + Z.of_nat k'
      else rfind_from s sub lo k'
  end.

(** [s.rfind(sub, a, b)]: the highest index of an occurrence of [sub] that
    lies inside [s[a:b]], or [-1]. *)
Definition rfind (s sub : string) (a b : Z) : Z :=
  let a' := adjust (len s) a in
  let b' := adjust (len s) b in
  if b' - a' <? len sub then -1
  else rfind_from s sub a' (Z.to_nat (b' - a' - len sub + 1)).

(** [c.isspace()] for a code point below 256. *)
Definition isspace (c : ascii) : bool :=
  let n := nat_of_ascii c in
  ((9 <=? n) && (n <=? 13) || (28 <=? n) && (n <=? 32)
   || (n =? 133) || (n =? 160))%nat.

Fixpoint lstrip (s : string) : string :=
  match s with
  | EmptyString => EmptyString
  | String c s' => if isspace c then lstrip s' else s
  end.

(** Drops trailing whitespace; the result of the tail decides whether the
    head survives. *)
Fixpoint rstrip (s : string) : string :=
  match s with
  | EmptyString => EmptyString
  | String c s' =>
      match rstrip s' with
      | EmptyString => if isspace c then EmptyString else String c EmptyString
      | r => String c r
      end
  end.

(** [s.strip()]. *)
Definition strip (s : string) : string := rstrip (lstrip s).

(** Truth value of a string: non-empty. *)
Definition truthy (s : string) : bool :=
  match s with EmptyString => false | _ => true end.

(** [sep.join(l)]. *)
Fixpoint join (sep : string) (l : list string) : string :=
  match l with
  | [] => ""
  | [x] => x
  | x :: rest => (x ++ sep ++ join sep rest)%string
  end.

End Py.

(** ** The chunker *)

Definition newline : string := String (ascii_of_nat 10) EmptyString.

(** The sentence endings looked for, in the order the code tries them. *)
Definition separators : list string := [". "; "! "; "? "; newline].

(** The [for sep in ...] loop: the first separator whose last occurrence in
    the window lies past the midpoint moves the cut right behind its first
    character; otherwise the cut stays where it was. *)
Fixpoint find_cut (text : string) (seps : list string)
    (start end_ chunk_size : Z) : Z :=
  match seps with
  | [] => end_
  | sep :: rest =>
      let last_sep := Py.rfind text sep start end_ in
      if start + chunk_size / 2 <? last_sep then last_sep + 1
      else find_cut text rest start end_ chunk_size
  end.

(** Where the window starting at [start] is cut. *)
Definition cut_end (text : string) (chunk_size start : Z) : Z :=
  let end_ := start + chunk_size in
  if end_ <? Py.len text then find_cut text separators start end_ chunk_size
  else end_.

(** The cursor after the cut. *)
Definition next_start (text : string) (overlap end_ : Z) : Z :=
  if end_ <? Py.len text then end_ - overlap else Py.len text.

(** One pass through the body of the [while] loop. *)
Definition chunk_step (text : string) (chunk_size overlap start : Z)
    (chunks : list string) : Z * list string :=
  let end_ := cut_end text chunk_size start in
  let chunk := Py.strip (Py.slice text start end_) in
  let chunks' := if Py.truthy chunk then chunks ++ [chunk] else chunks in
  (next_start text overlap end_, chunks').

(** The [while start < len(text)] loop, with fuel. *)
Fixpoint chunk_loop (fuel : nat) (text : string) (chunk_size overlap : Z)
    (start : Z) (chunks : list string) : option (list string) :=
  if start <? Py.len text then
    match fuel with
    | O => None
    | S fuel' =>
        let '(start', chunks') :=
          chunk_step text chunk_size overlap start chunks in
        chunk_loop fuel' text chunk_size overlap start' chunks'
    end
  else Some chunks.

(** [chunk_transcript(text, chunk_size, overlap)]. *)
Definition chunk_transcript (fuel : nat) (text : string)
    (chunk_size overlap : Z) : option (list string) :=
  if negb (Py.truthy text) || (Py.len text <? chunk_size) then
    Some (if Py.truthy text then [text] else [])
  else chunk_loop fuel text chunk_size overlap 0 [].

(** The call the store makes: both sizes at their defaults.  With these
    sizes the loop makes at most one pass per character of the text
    ([chunk_default_total] below), so this fuel is always enough. *)
Definition default_chunk_size : Z := 500.
Definition default_overlap : Z := 100.

Definition chunk_default (text : string) : list string :=
  match chunk_transcript (String.length text) text
          default_chunk_size default_overlap with
  | Some chunks => chunks
  | None => []
  end.

(** ** External collaborators *)

Definition vector := list Q.

(** The SentenceTransformer model: [encode] on a list of texts and on one
    text.  [None] stands for a call that raises. *)
Record embedding_model := {
  encode_batch : list string -> option (list vector);
  encode : string -> option vector
}.

(** What the module does not define itself: the lazily loaded model
    ([None] when it cannot be loaded) and pgvector's [<=>] operator. *)
Record externals := {
  get_embedding_model : option embedding_model;
  cosine_distance : vector -> vector -> Q
}.

(** ** Tables *)

(** [meetings]: only the columns the search reads.  [created_at] is the
    timestamp in ISO-8601 form, [None] for SQL NULL. *)
Record meeting := {
  id : string;
  title : string;
  created_at : option string
}.

(** [meeting_embeddings], without the serial key and the insertion time. *)
Record embedding_row := {
  meeting_id : string;
  chunk_index : Z;
  content : string;
  embedding : vector
}.

Record database := {
  meetings : list meeting;
  meeting_embeddings : list embedding_row
}.

Definition with_embeddings (d : database) (rows : list embedding_row)
    : database :=
  {| meetings := meetings d; meeting_embeddings := rows |}.

(** The chunks stored for one meeting, in table order. *)
Definition rows_of (m : string) (d : database) : list embedding_row :=
  filter (fun r => String.eqb (meeting_id r) m) (meeting_embeddings d).

Definition has_meeting (m : string) (d : database) : bool :=
  existsb (fun x => String.eqb (id x) m) (meetings d).

(** ** Connections, statements and transactions *)

Inductive exn := StorageError | ProviderError.

(** A connection: the committed tables, the tables as the session sees
    them, whether a transaction is open, and the number of round trips made
    so far. *)
Record conn := {
  durable : database;
  view : database;
  in_transaction : bool;
  clock : nat
}.

(** Database code: state that survives an exception. *)
Definition DB (A : Type) : Type := conn -> (exn + A) * conn.

Definition ret {A : Type} (a : A) : DB A := fun c => (inr a, c).

Definition raise {A : Type} (e : exn) : DB A := fun c => (inl e, c).

Definition bind {A B : Type} (m : DB A) (k : A -> DB B) : DB B :=
  fun c =>
    match m c with
    | (inl e, c') => (inl e, c')
    | (inr a, c') => k a c'
    end.

Notation "x <- m ;; k" := (bind m (fun x => k))
  (at level 61, m at next level, right associativity).
Notation "m ;;; k" := (bind m (fun _ => k))
  (at level 61, right associativity).

(** One more round trip made. *)
Definition tick (c : conn) : conn :=
  {| durable := durable c; view := view c;
     in_transaction := in_transaction c; clock := S (clock c) |}.

(** [fault = Some k]: round trip number [k] of this connection raises. *)
Definition round_trip (fault : option nat) : DB unit :=
  fun c =>
    match fault with
    | Some k =>
        if Nat.eqb k (clock c) then (inl StorageError, c)
        else (inr tt, tick c)
    | None => (inr tt, tick c)
    end.

(** A write becomes durable at once outside a transaction, and only at
    commit inside one. *)
Definition write (d : database) : DB unit :=
  fun c =>
    (inr tt, {| durable := if in_transaction c then durable c else d;
                view := d;
                in_transaction := in_transaction c;
                clock := clock c |}).

Definition read : DB database := fun c => (inr (view c), c).

(** [DELETE FROM meeting_embeddings WHERE meeting_id = $1]. *)
Definition execute_delete (fault : option nat) (m : string) : DB unit :=
  round_trip fault ;;;
  d <- read ;;
  write (with_embeddings d
           (filter (fun r => negb (String.eqb (meeting_id r) m))
                   (meeting_embeddings d))).

(** [INSERT INTO meeting_embeddings ... VALUES ($1, $2, $3, $4)]; the
    foreign key on [meetings(id)] rejects an unknown meeting. *)
Definition execute_insert (fault : option nat) (r : embedding_row)
    : DB unit :=
  round_trip fault ;;;
  d <- read ;;
  if has_meeting (meeting_id r) d
  then write (with_embeddings d (meeting_embeddings d ++ [r]))
  else raise StorageError.

(** [executemany]: one insert per record, stopping at the first error. *)
Fixpoint executemany (fault : option nat) (records : list embedding_row)
    : DB unit :=
  match records with
  | [] => ret tt
  | r :: rest => execute_insert fault r ;;; executemany fault rest
  end.

Definition set_transaction (b : bool) : DB unit :=
  fun c => (inr tt, {| durable := durable c; view := view c;
                       in_transaction := b; clock := clock c |}).

Definition rollback : DB unit :=
  fun c => (inr tt, {| durable := durable c; view := durable c;
                       in_transaction := false; clock := clock c |}).

Definition commit : DB unit :=
  fun c => (inr tt, {| durable := view c; view := view c;
                       in_transaction := false; clock := clock c |}).

(** [async with conn.transaction(): body]: BEGIN, the body, then COMMIT;
    an exception anywhere rolls back and is raised again. *)
Definition transaction {A : Type} (fault : option nat) (body : DB A)
    : DB A :=
  fun c =>
    match (round_trip fault ;;; set_transaction true ;;; body) c with
    | (inl e, c') => (inl e, snd (rollback c'))
    | (inr a, c') =>
        match round_trip fault c' with
        | (inl e, c'') => (inl e, snd (rollback c''))
        | (inr _, c'') => (inr a, snd (commit c''))
        end
    end.

(** [conn.close()], run in the [finally] clause: one more round trip, so
    it can raise as well. *)
Definition close (fault : option nat) : DB unit := round_trip fault.

(** [_get_db_connection()]: connecting is the first round trip. *)
Definition get_db_connection (fault : option nat) (d : database)
    : (exn + unit) * conn :=
  round_trip fault
    {| durable := d; view := d; in_transaction := false; clock := 0 |}.

(** ** Refresh: [store_meeting_embeddings] *)

(** One transcript dictionary: the value under ['text'], if any. *)
Record transcript := { text : option string }.

(** [[t.get('text', '') for t in transcripts if t.get('text')]]. *)
Definition transcript_texts (transcripts : list transcript) : list string :=
  flat_map (fun t => match text t with
                     | Some s => if Py.truthy s then [s] else []
                     | None => []
                     end) transcripts.

(** The records built by [enumerate(zip(chunks, embeddings))], counting
    from [i]. *)
Fixpoint records_from (m : string) (i : Z) (pairs : list (string * vector))
    : list embedding_row :=
  match pairs with
  | [] => []
  | (chunk, v) :: rest =>
      {| meeting_id := m; chunk_index := i; content := chunk;
         embedding := v |} :: records_from m (i + 1) rest
  end.

(** The body of the transaction: delete, then insert the new records. *)
Definition refresh_body (fault : option nat) (m : string)
    (records : list embedding_row) : DB unit :=
  execute_delete fault m ;;; executemany fault records.

(** [store_meeting_embeddings]: the tables after the call and the value
    returned.  Title and date are only logged. *)
Definition store_meeting_embeddings (ext : externals) (fault : option nat)
    (d : database) (m : string) (transcripts : list transcript)
    : database * Z :=
  match get_embedding_model ext with
  | None => (d, 0)
  | Some model =>
      let full_text := Py.join newline (transcript_texts transcripts) in
      if negb (Py.truthy (Py.strip full_text)) then (d, 0)
      else
        let chunks := chunk_default full_text in
        match chunks with
        | [] => (d, 0)
        | _ :: _ =>
            match encode_batch model chunks with
            | None => (d, 0)
            | Some embeddings =>
                match get_db_connection fault d with
                | (inl _, c) => (durable c, 0)
                | (inr _, c) =>
                    let records :=
                      records_from m 0 (combine chunks embeddings) in
                    match transaction fault (refresh_body fault m records) c
                    with
                    | (inl _, c') => (durable (snd (close fault c')), 0)
                    | (inr _, c') =>
                        match close fault c' with
                        | (inl _, c'') => (durable c'', 0)
                        | (inr _, c'') =>
                            (durable c'', Z.of_nat (List.length chunks))
                        end
                    end
                end
            end
        end
  end.

(** ** Search: [search_context] *)

(** Arguments bound to the placeholders of a statement. *)
Inductive sql_arg :=
| ArgVector (v : vector)
| ArgTextArray (ids : list string)
| ArgInt (n : Z).

(** The SELECT statement as the code assembles it: the placeholder numbers
    used by the similarity column, by the optional [WHERE ... = ANY($k)],
    and by the [ORDER BY ... <=> $k LIMIT $k] tail. *)
Record select_sql := {
  similarity_param : nat;
  where_any_param : option nat;
  order_limit_params : option (nat * nat)
}.

(** [sql.replace("$a", "$b")]. *)
Definition replace_param (a b : nat) (q : select_sql) : select_sql :=
  let f := fun k => if Nat.eqb k a then b else k in
  {| similarity_param := f (similarity_param q);
     where_any_param := option_map f (where_any_param q);
     order_limit_params :=
       option_map (fun p => (f (fst p), f (snd p))) (order_limit_params q) |}.

Definition placeholders (q : select_sql) : list nat :=
  similarity_param q
  :: match where_any_param q with Some k => [k] | None => [] end
  ++ match order_limit_params q with Some (o, l) => [o; l] | None => [] end.

(** The arguments passed must be exactly those the statement names. *)
Definition well_numbered (q : select_sql) (args : list sql_arg) : bool :=
  forallb (fun k => existsb (Nat.eqb k) (placeholders q))
          (seq 1 (List.length args))
  && forallb (fun k => Nat.leb 1 k && Nat.leb k (List.length args))
             (placeholders q).

Definition nth_arg (args : list sql_arg) (k : nat) : option sql_arg :=
  match k with
  | O => None
  | S k' => nth_error args k'
  end.

(** A row of the result, named after the selected columns. *)
Module Selected.
Record t := {
  content : string;
  meeting_id : string;
  meeting_title : string;
  meeting_date : option string;
  chunk_index : Z;
  similarity : Q
}.
End Selected.

(** [FROM meeting_embeddings e JOIN meetings m ON e.meeting_id = m.id]. *)
Definition joined (d : database) : list (embedding_row * meeting) :=
  flat_map (fun e =>
              map (fun m => (e, m))
                  (filter (fun m => String.eqb (meeting_id e) (id m))
                          (meetings d)))
           (meeting_embeddings d).

Section Ordering.
Context {A : Type} (key : A -> Q).

Fixpoint insert_by (x : A) (l : list A) : list A :=
  match l with
  | [] => [x]
  | y :: l' =>
      if Qle_bool (key x) (key y) then x :: l else y :: insert_by x l'
  end.

(** [ORDER BY key]: ascending; rows with equal keys keep table order. *)
Fixpoint sort_by (l : list A) : list A :=
  match l with
  | [] => []
  | x :: l' => insert_by x (sort_by l')
  end.
End Ordering.

Definition select_row (ext : externals) (query_vector : vector)
    (p : embedding_row * meeting) : Selected.t :=
  {| Selected.content := content (fst p);
     Selected.meeting_id := meeting_id (fst p);
     Selected.meeting_title := title (snd p);
     Selected.meeting_date := created_at (snd p);
     Selected.chunk_index := chunk_index (fst p);
     Selected.similarity :=
       (1 - cosine_distance ext (embedding (fst p)) query_vector)%Q |}.

(** Evaluation of the statement on the tables; [None] is an SQL error
    (wrong argument count or type, negative LIMIT). *)
Definition run_select (ext : externals) (q : select_sql)
    (args : list sql_arg) (d : database) : option (list Selected.t) :=
  if negb (well_numbered q args) then None
  else
    match nth_arg args (similarity_param q) with
    | Some (ArgVector v) =>
        let filtered :=
          match where_any_param q with
          | None => Some (joined d)
          | Some k =>
              match nth_arg args k with
              | Some (ArgTextArray ids) =>
                  Some (filter (fun p => existsb (String.eqb
                                                    (meeting_id (fst p))) ids)
                               (joined d))
              | _ => None
              end
          end in
        match filtered, order_limit_params q with
        | Some rows, Some (o, l) =>
            match nth_arg args o, nth_arg args l with
            | Some (ArgVector w), Some (ArgInt n) =>
                if n <? 0 then None
                else
                  Some (map (select_row ext v)
                          (firstn (Z.to_nat n)
                             (sort_by (fun p => cosine_distance ext
                                                  (embedding (fst p)) w)
                                      rows)))
            | _, _ => None
            end
        | Some rows, None => Some (map (select_row ext v) rows)
        | None, _ => None
        end
    | _ => None
    end.

(** [conn.fetch(sql, *args)]. *)
Definition fetch (ext : externals) (fault : option nat) (q : select_sql)
    (args : list sql_arg) : DB (list Selected.t) :=
  round_trip fault ;;;
  d <- read ;;
  match run_select ext q args d with
  | Some rows => ret rows
  | None => raise StorageError
  end.

(** A formatted match, named after the keys of the returned dictionary. *)
Module Hit.
Record t := {
  text : string;
  meeting_id : string;
  meeting_title : string;
  meeting_date : string;
  similarity : Q;
  chunk_index : Z
}.
End Hit.

Definition format_row (r : Selected.t) : Hit.t :=
  {| Hit.text := Selected.content r;
     Hit.meeting_id := Selected.meeting_id r;
     Hit.meeting_title := Selected.meeting_title r;
     Hit.meeting_date :=
       match Selected.meeting_date r with Some iso => iso | None => "" end;
     Hit.similarity := Selected.similarity r;
     Hit.chunk_index := Selected.chunk_index r |}.

(** Truth value of [allowed_meeting_ids]: [None] and [[]] are both false. *)
Definition allowed_truthy (allowed : option (list string)) : bool :=
  match allowed with
  | Some (_ :: _) => true
  | _ => false
  end.

(** The statement and its arguments, assembled step by step as in the
    source. *)
Definition build_query (query_vector : vector) (n_results : Z)
    (allowed_meeting_ids : option (list string))
    : select_sql * list sql_arg :=
  let sql := {| similarity_param := 1; where_any_param := None;
                order_limit_params := None |} in
  let args := [ArgVector query_vector] in
  let '(sql, args) :=
    if allowed_truthy allowed_meeting_ids
    then ({| similarity_param := similarity_param sql;
             where_any_param := Some 2%nat;
             order_limit_params := order_limit_params sql |},
          args ++ [ArgTextArray
                     (match allowed_meeting_ids with
                      | Some ids => ids
                      | None => []
                      end)])
    else (sql, args) in
  let sql := {| similarity_param := similarity_param sql;
                where_any_param := where_any_param sql;
                order_limit_params := Some (1%nat, 3%nat) |} in
  let args := args ++ [ArgInt n_results] in
  let sql :=
    if negb (allowed_truthy allowed_meeting_ids)
    then replace_param 3 2 sql
    else sql in
  (sql, args).

(** [search_context]. *)
Definition search_context (ext : externals) (fault : option nat)
    (d : database) (query : string) (n_results : Z)
    (allowed_meeting_ids : option (list string)) : list Hit.t :=
  match get_embedding_model ext with
  | None => []
  | Some model =>
      match encode model query with
      | None => []
      | Some query_vector =>
          match get_db_connection fault d with
          | (inl _, _) => []
          | (inr _, c) =>
              let '(sql, args) :=
                build_query query_vector n_results allowed_meeting_ids in
              match fetch ext fault sql args c with
              | (inl _, _) => []
              | (inr rows, c') =>
                  match close fault c' with
                  | (inl _, _) => []
                  | (inr _, _) => map format_row rows
                  end
              end
          end
      end
  end.

(** ** Notions used by the statements *)

(** The last character of a chunk closes a sentence. *)
Fixpoint ends_in_delimiter (chunk : string) : bool :=
  match chunk with
  | EmptyString => false
  | String c EmptyString =>
      existsb (Ascii.eqb c) ["."%char; "!"%char; "?"%char; ascii_of_nat 10]
  | String _ rest => ends_in_delimiter rest
  end.

(** The provider returns one vector per text. *)
Definition length_preserving (ext : externals) : Prop :=
  forall model texts vectors,
    get_embedding_model ext = Some model ->
    encode_batch model texts = Some vectors ->
    List.length vectors = List.length texts.

(** The text a refresh works on, and the chunks it derives from it. *)
Definition full_text (transcripts : list transcript) : string :=
  Py.join newline (transcript_texts transcripts).

Definition derived_chunks (transcripts : list transcript) : list string :=
  chunk_default (full_text transcripts).

(** The rows a search ranks: the join, restricted to the allow-list when
    the list is given and not empty. *)
Definition candidates (d : database) (allowed : option (list string))
    : list (embedding_row * meeting) :=
  match allowed with
  | Some (i :: ids) =>
      filter (fun p => existsb (String.eqb (meeting_id (fst p))) (i :: ids))
             (joined d)
  | _ => joined d
  end.

(** The match a candidate row is returned as. *)
Definition hit_of (ext : externals) (query_vector : vector)
    (p : embedding_row * meeting) : Hit.t :=
  format_row (select_row ext query_vector p).

(** The order the specification asks of two neighbouring matches: higher
    similarity first, and on equal similarity the smaller document
    identifier, then the smaller chunk index. *)
Definition ranked_pair (a b : Hit.t) : bool :=
  if Qeq_bool (Hit.similarity a) (Hit.similarity b) then
    match String.compare (Hit.meeting_id a) (Hit.meeting_id b) with
    | Lt => true
    | Eq => Hit.chunk_index a <=? Hit.chunk_index b
    | Gt => false
    end
  else Qle_bool (Hit.similarity b) (Hit.similarity a).

Fixpoint ranked_with_ties (hits : list Hit.t) : bool :=
  match hits with
  | a :: (b :: _) as rest => ranked_pair a b && ranked_with_ties rest
  | _ => true
  end.

(** In every meeting the chunk indices run 0, 1, 2, ... in table order. *)
Definition contiguous (d : database) : Prop :=
  forall m,
    map chunk_index (rows_of m d)
    = map Z.of_nat (seq 0 (List.length (rows_of m d))).

(** What a statement run inside a transaction leaves alone: the committed
    tables, the open transaction and the [meetings] table. *)
Definition keeps_committed {A : Type} (op : DB A) : Prop :=
  forall c r c',
    in_transaction c = true ->
    op c = (r, c') ->
    durable c' = durable c
    /\ in_transaction c' = true
    /\ meetings (view c') = meetings (view c).

(** The tables after a committed refresh of meeting [m]: the rows of the
    other meetings, then the new records. *)
Definition refreshed (d : database) (m : string)
    (records : list embedding_row) : database :=
  with_embeddings d
    (filter (fun r => negb (String.eqb (meeting_id r) m))
            (meeting_embeddings d) ++ records).

(** The key a search sorts by. *)
Definition distance_to (ext : externals) (query_vector : vector)
    (p : embedding_row * meeting) : Q :=
  cosine_distance ext (embedding (fst p)) query_vector.

(** What a search that ran returns: the nearest candidates, formatted. *)
Definition ranking (ext : externals) (d : database) (query_vector : vector)
    (n_results : Z) (allowed : option (list string)) : list Hit.t :=
  map (hit_of ext query_vector)
      (firstn (Z.to_nat n_results)
              (sort_by (distance_to ext query_vector)
                       (candidates d allowed))).

(** The provider cannot serve a refresh, or a search: the model is not
    loaded, or the call to it raises. *)
Definition provider_fails_refresh (ext : externals)
    (transcripts : list transcript) : Prop :=
  match get_embedding_model ext with
  | None => True
  | Some model => encode_batch model (derived_chunks transcripts) = None
  end.

Definition provider_fails_search (ext : externals) (query : string) : Prop :=
  match get_embedding_model ext with
  | None => True
  | Some model => encode model query = None
  end.

(** ** Sample data *)

Module Sample.

Definition dot (a b : vector) : Q :=
  fold_right Qplus 0%Q (map (fun p => (fst p * snd p)%Q) (combine a b)).

(** A rational stand-in for the distance operator: the squared sine of the
    angle, which is 0 on parallel and 1 on orthogonal vectors. *)
Definition distance (a b : vector) : Q :=
  if Qeq_bool (dot a a * dot b b) 0 then 1%Q
  else (1 - (dot a b * dot a b) / (dot a a * dot b b))%Q.

(** A two-dimensional embedding by text length. *)
Definition embed (s : string) : vector :=
  [inject_Z (Z.of_nat (String.length s)); 1%Q].

Definition model : embedding_model :=
  {| encode_batch := fun l => Some (map embed l);
     encode := fun s => Some (embed s) |}.

Definition up : externals :=
  {| get_embedding_model := Some model; cosine_distance := distance |}.

Definition down : externals :=
  {| get_embedding_model := None; cosine_distance := distance |}.

Definition says (s : string) : list transcript := [{| text := Some s |}].

Definition empty_db : database :=
  {| meetings :=
       [{| id := "m1"; title := "Standup";
           created_at := Some "2024-01-01T09:00:00" |};
        {| id := "m2"; title := "Retro"; created_at := None |}];
     meeting_embeddings := [] |}.

(** After [m1] was refreshed with "hello world". *)
Definition db1 : database :=
  fst (store_meeting_embeddings up None empty_db "m1" (says "hello world")).

(** After [m2] was refreshed as well, with a text closer to "hello". *)
Definition db2 : database :=
  fst (store_meeting_embeddings up None db1 "m2" (says "hello!")).

(** [m2] stored before [m1], both with the same embedding. *)
Definition tied_db : database :=
  fst (store_meeting_embeddings up None
         (fst (store_meeting_embeddings up None empty_db "m2" (says "world")))
         "m1" (says "hello")).

(** The match for the chunk of [m1], for the query "hello". *)
Definition m1_hit : Hit.t :=
  hit_of up (embed "hello")
    ({| meeting_id := "m1"; chunk_index := 0; content := "hello world";
        embedding := embed "hello world" |},
     {| id := "m1"; title := "Standup";
        created_at := Some "2024-01-01T09:00:00" |}).

(** The row of [m2] in [db2], joined with its meeting. *)
Definition m2_candidate : embedding_row * meeting :=
  ({| meeting_id := "m2"; chunk_index := 0; content := "hello!";
      embedding := embed "hello!" |},
   {| id := "m2"; title := "Retro"; created_at := None |}).

Fixpoint repeat_string (n : nat) (s : string) : string :=
  match n with
  | O => ""
  | S n' => (s ++ repeat_string n' s)%string
  end.

(** 600 characters without a sentence ending: two chunks. *)
Definition long_text : string := repeat_string 60 "0123456789".

End Sample.

(** ** Windows of the chunker *)

(** The chunks a list of windows gives: each window's slice, stripped, the
    empty ones dropped. *)
Definition chunks_of (text : string) (ws : list (Z * Z)) : list string :=
  filter Py.truthy
    (map (fun w => Py.strip (Py.slice text (fst w) (snd w))) ws).

(** The windows [(start, end)] the loop of [chunk_transcript] cuts, from
    the cursor [start] on. *)
Fixpoint windows (fuel : nat) (text : string) (chunk_size overlap : Z)
    (start : Z) : option (list (Z * Z)) :=
  if start <? Py.len text then
    match fuel with
    | O => None
    | S fuel' =>
        let end_ := cut_end text chunk_size start in
        option_map (cons (start, end_))
          (windows fuel' text chunk_size overlap
             (next_start text overlap end_))
    end
  else Some [].

(** A chunk as the loop stores it: not empty, no blank at either end. *)
Definition clean_chunk (chunk : string) : Prop :=
  Py.truthy chunk = true /\ Py.strip chunk = chunk.

(** A well-formed window sequence from the cursor [start]: every window is
    non-empty, at most [chunk_size] wide and starts at an index that is not
    negative; the first starts at [start] and the last reaches the end of
    the text; each next one starts [overlap] before the end of the one
    before it. *)
Inductive window_chain (text : string) (chunk_size overlap : Z)
    : Z -> list (Z * Z) -> Prop :=
| chain_end (start : Z) :
    Py.len text <= start ->
    window_chain text chunk_size overlap start []
| chain_step (start end_ : Z) (rest : list (Z * Z)) :
    0 <= start < Py.len text ->
    start < end_ <= start + chunk_size ->
    window_chain text chunk_size overlap
      (if end_ <? Py.len text then end_ - overlap else Py.len text) rest ->
    window_chain text chunk_size overlap start ((start, end_) :: rest).

(** ** The lazily loaded model *)

(** [_get_embedding_model()], with the module-level cache
    [_embedding_model] as explicit state: the value returned and the cache
    after the call.  [load] is what loading the model yields if it has to
    be loaded, [None] when the import or the constructor raises. *)
Definition _get_embedding_model (load : option embedding_model)
    (_embedding_model : option embedding_model)
    : option embedding_model * option embedding_model :=
  match _embedding_model with
  | None =>
      match load with
      | Some model => (Some model, Some model)
      | None => (None, None)
      end
  | Some model => (Some model, Some model)
  end.

(** The values returned by successive calls, one load outcome per call. *)
Fixpoint model_calls (loads : list (option embedding_model))
    (_embedding_model : option embedding_model)
    : list (option embedding_model) :=
  match loads with
  | [] => []
  | load :: rest =>
      fst (_get_embedding_model load _embedding_model)
      :: model_calls rest (snd (_get_embedding_model load _embedding_model))
  end.

(** The first value present in a list of optional values. *)
Fixpoint first_some {A : Type} (l : list (option A)) : option A :=
  match l with
  | [] => None
  | Some a :: _ => Some a
  | None :: rest => first_some rest
  end.

(** ** Authentication: [app/auth.py] *)

Module Auth.

(** A JSON value as a token payload carries it; lists and objects only
    matter through being empty or not. *)
Inductive value :=
| Null
| Bool (b : bool)
| Num (q : Q)
| Str (s : string)
| Composite (empty : bool).

(** Truth value of a Python object decoded from JSON. *)
Definition truthy (v : value) : bool :=
  match v with
  | Null => false
  | Bool b => b
  | Num q => negb (Qeq_bool q 0)
  | Str s => Py.truthy s
  | Composite empty => negb empty
  end.

(** A dictionary with string keys. *)
Definition dict := list (string * value).

(** [d.get(key)]: [None] when the key is missing. *)
Fixpoint get (d : dict) (key : string) : option value :=
  match d with
  | [] => None
  | (k, v) :: rest => if String.eqb k key then Some v else get rest key
  end.

(** [s.endswith(suffix)]. *)
Definition endswith (s suffix : string) : bool :=
  Nat.leb (String.length suffix) (String.length s)
  && String.eqb
       (substring (String.length s - String.length suffix)
                  (String.length suffix) s)
       suffix.

(** What the functions raise.  [JWTError] stands for the class with its
    subclasses; [headers] is [None] unless given. *)
Inductive exn :=
| JWTError
| HTTPException (status_code : Z) (detail : string)
    (headers : option (list (string * string)))
| AttributeError
| ValidationError
| OtherError (name : string).

Record User := {
  email : string;
  name : option string;
  picture : option string
}.

(** The collaborators: the configured client id, the outcome of fetching
    Google's keys, [jwt.decode] for RS256 with the audience given, and
    what the [User] model makes of a [name] or [picture] that is neither a
    string nor null ([None]: it rejects the value). *)
Record env := {
  GOOGLE_CLIENT_ID : option string;
  get_google_public_keys : exn + dict;
  jwt_decode : string -> dict -> option string -> exn + dict;
  user_optional_str : value -> option (option string)
}.

(** [verify_google_token]: only a [JWTError] is turned into a 401. *)
Definition verify_google_token (e : env) (token : string) : exn + dict :=
  let attempt :=
    match get_google_public_keys e with
    | inl x => inl x
    | inr jwks => jwt_decode e token jwks (GOOGLE_CLIENT_ID e)
    end in
  match attempt with
  | inl JWTError =>
      inl (HTTPException 401 "Invalid authentication credentials"
             (Some [("WWW-Authenticate", "Bearer")]))
  | inl x => inl x
  | inr payload => inr payload
  end.

(** An [Optional[str]] field of [User] filled from [payload.get(key)]. *)
Definition optional_field (e : env) (v : option value)
    : option (option string) :=
  match v with
  | None => Some None
  | Some Null => Some None
  | Some (Str s) => Some (Some s)
  | Some other => user_optional_str e other
  end.

(** [get_current_user], on the bearer token of the request. *)
Definition get_current_user (e : env) (credentials : string) : exn + User :=
  let token := credentials in
  match verify_google_token e token with
  | inl _ =>
      inl (HTTPException 401 "Could not validate credentials" None)
  | inr payload =>
      let email := get payload "email" in
      if negb (match email with Some v => truthy v | None => false end)
      then inl (HTTPException 401 "Token missing email" None)
      else
        match email with
        | Some (Str address) =>
            if negb (endswith address "@appointy.com")
            then inl (HTTPException 403
                        "Access restricted to @appointy.com users" None)
            else
              match optional_field e (get payload "name"),
                    optional_field e (get payload "picture") with
              | Some n, Some p =>
                  inr {| email := address; name := n; picture := p |}
              | _, _ => inl ValidationError
              end
        | _ => inl AttributeError
        end
  end.

(** A Google key set that accepts exactly one token, for the samples. *)
Definition sample_env (payload : dict) : env :=
  {| GOOGLE_CLIENT_ID := Some "client-1";
     get_google_public_keys := inr [("keys", Composite false)];
     jwt_decode := fun token _ audience =>
       if String.eqb token "good" then inr payload else inl JWTError;
     user_optional_str := fun _ => None |}.

End Auth.

(** ** Data migration: step 4 of [migrate] in [migrate_to_neon.py] *)

Module Migrate.

(** A value read from SQLite, or the boolean the script makes of one. *)
Inductive value :=
| Null
| Int (z : Z)
| Real (q : Q)
| Text (s : string)
| Blob (b : string)
| Boolean (b : bool).

Definition truthy (v : value) : bool :=
  match v with
  | Null => false
  | Int z => negb (z =? 0)
  | Real q => negb (Qeq_bool q 0)
  | Text s => Py.truthy s
  | Blob b => Py.truthy b
  | Boolean b => b
  end.

Definition as_number (v : value) : option Q :=
  match v with
  | Int z => Some (inject_Z z)
  | Real q => Some q
  | Boolean b => Some (if b then 1%Q else 0%Q)
  | _ => None
  end.

(** Python's [==], which decides membership in a set. *)
Definition py_eq (a b : value) : bool :=
  match as_number a, as_number b with
  | Some x, Some y => Qeq_bool x y
  | None, None =>
      match a, b with
      | Null, Null => true
      | Text s, Text t => String.eqb s t
      | Blob s, Blob t => String.eqb s t
      | _, _ => false
      end
  | _, _ => false
  end.

(** The result of [SELECT * FROM table]: the column names and the rows,
    one value per column. *)
Record result_set := {
  columns : list string;
  rows : list (list value)
}.

(** The SQLite file: [None] for a table that does not exist. *)
Definition sqlite := string -> option result_set.

(** One [execute_values] call: the target table, the columns and the
    tuples. *)
Record batch := {
  target : string;
  batch_columns : list string;
  tuples : list (list value)
}.

(** What the loop carries: the set of meeting ids seen and the inserts of
    the open Postgres transaction. *)
Record state := {
  valid_meeting_ids : list value;
  pending : list batch
}.

Definition dict := list (string * value).

Fixpoint get (d : dict) (key : string) : option value :=
  match d with
  | [] => None
  | (k, v) :: rest => if String.eqb k key then Some v else get rest key
  end.

(** [d[key] = v] for a key that is present. *)
Definition set_key (d : dict) (key : string) (v : value) : dict :=
  map (fun kv => if String.eqb (fst kv) key then (fst kv, v) else kv) d.

(** [[d[c] for c in columns]]; [None] is a [KeyError]. *)
Fixpoint lookup_all (d : dict) (cols : list string)
    : option (list value) :=
  match cols with
  | [] => Some []
  | c :: rest =>
      match get d c, lookup_all d rest with
      | Some v, Some vs => Some (v :: vs)
      | _, _ => None
      end
  end.

(** [l.remove(x)] for an [x] that is in [l]: the first occurrence goes. *)
Fixpoint remove_first (x : string) (l : list string) : list string :=
  match l with
  | [] => []
  | y :: rest => if String.eqb y x then rest else y :: remove_first x rest
  end.

Definition tables_map : list (string * string) :=
  [("workspaces", "workspaces");
   ("meetings", "meetings");
   ("settings", "settings");
   ("transcript_settings", "transcript_settings");
   ("user_api_keys", "user_api_keys");
   ("transcripts", "transcript_segments");
   ("summary_processes", "summary_processes");
   ("transcript_chunks", "full_transcripts");
   ("workspace_members", "workspace_members");
   ("meeting_permissions", "meeting_permissions")].

Definition dependent_tables : list string :=
  ["transcripts"; "summary_processes"; "transcript_chunks";
   "meeting_permissions"].

Inductive row_outcome :=
| Raised
| Skipped
| Kept (values : list value).

(** The fix for [user_api_keys]: [is_active], when present, becomes
    [bool(is_active)]. *)
Definition convert_booleans (source_table : string) (row_dict : dict)
    : dict :=
  if String.eqb source_table "user_api_keys"
  then match get row_dict "is_active" with
       | Some v => set_key row_dict "is_active" (Boolean (truthy v))
       | None => row_dict
       end
  else row_dict.

(** The body of [for row in rows]. *)
Definition process_row (source_table : string)
    (all_columns columns : list string) (valid : list value)
    (row : list value) : list value * row_outcome :=
  let row_dict := combine all_columns row in
  let captured :=
    if String.eqb source_table "meetings"
    then option_map (fun v => v :: valid) (get row_dict "id")
    else Some valid in
  match captured with
  | None => (valid, Raised)
  | Some valid' =>
      if existsb (String.eqb source_table) dependent_tables
         && match get row_dict "meeting_id" with
            | Some v => truthy v && negb (existsb (py_eq v) valid')
            | None => false
            end
      then (valid', Skipped)
      else
        match lookup_all (convert_booleans source_table row_dict) columns
        with
        | Some values => (valid', Kept values)
        | None => (valid', Raised)
        end
  end.

(** The loop over the rows; [None] when a row raised. *)
Fixpoint process_rows (source_table : string)
    (all_columns columns : list string) (valid : list value)
    (rows : list (list value)) (values : list (list value))
    : list value * option (list (list value)) :=
  match rows with
  | [] => (valid, Some values)
  | row :: rest =>
      match process_row source_table all_columns columns valid row with
      | (valid', Raised) => (valid', None)
      | (valid', Skipped) =>
          process_rows source_table all_columns columns valid' rest values
      | (valid', Kept vs) =>
          process_rows source_table all_columns columns valid' rest
            (values ++ [vs])
      end
  end.

(** How the pass for one table ends. *)
Inductive table_outcome :=
| Untouched
| Inserted (b : batch)
| RolledBack.

(** The columns inserted: those of the source, without [id] for
    [transcripts]. *)
Definition insert_columns (source_table : string) (cols : list string)
    : list string :=
  if String.eqb source_table "transcripts" && existsb (String.eqb "id") cols
  then remove_first "id" cols
  else cols.

(** One pass of [for source_table, target_table in tables_map.items()].
    [accepts] tells whether Postgres takes a batch, given the inserts
    already pending. *)
Definition table_step (src : sqlite) (accepts : list batch -> batch -> bool)
    (st : state) (entry : string * string) : list value * table_outcome :=
  let '(source_table, target_table) := entry in
  match src source_table with
  | None => (valid_meeting_ids st, Untouched)
  | Some rs =>
      match rows rs with
      | [] => (valid_meeting_ids st, Untouched)
      | _ :: _ =>
          let cols := insert_columns source_table (columns rs) in
          match process_rows source_table (columns rs) cols
                  (valid_meeting_ids st) (rows rs) [] with
          | (valid', None) => (valid', RolledBack)
          | (valid', Some []) => (valid', Untouched)
          | (valid', Some (v :: vs)) =>
              let b := {| target := target_table; batch_columns := cols;
                          tuples := v :: vs |} in
              if accepts (pending st) b then (valid', Inserted b)
              else (valid', RolledBack)
          end
      end
  end.

Definition migrate_table (src : sqlite)
    (accepts : list batch -> batch -> bool) (st : state)
    (entry : string * string) : state :=
  match table_step src accepts st entry with
  | (valid', Untouched) =>
      {| valid_meeting_ids := valid'; pending := pending st |}
  | (valid', Inserted b) =>
      {| valid_meeting_ids := valid'; pending := pending st ++ [b] |}
  | (valid', RolledBack) =>
      {| valid_meeting_ids := valid'; pending := [] |}
  end.

Definition run_tables (src : sqlite) (accepts : list batch -> batch -> bool)
    (tables : list (string * string)) (st : state) : state :=
  fold_left (migrate_table src accepts) tables st.

(** The batches committed by the final [pg_conn.commit()]. *)
Definition migrate_data (src : sqlite)
    (accepts : list batch -> batch -> bool) : list batch :=
  pending (run_tables src accepts tables_map
             {| valid_meeting_ids := []; pending := [] |}).

(** The targets of the dependent tables. *)
Definition dependent_targets : list string :=
  ["transcript_segments"; "summary_processes"; "full_transcripts";
   "meeting_permissions"].

(** An id of a row of the SQLite table [meetings]. *)
Definition known_meeting (src : sqlite) (id : value) : Prop :=
  exists ms row,
    src "meetings" = Some ms
    /\ In row (rows ms)
    /\ get (combine (columns ms) row) "id" = Some id.

(** Every tuple of the batch with a true [meeting_id] names a meeting of
    the SQLite file. *)
Definition no_orphans (src : sqlite) (b : batch) : Prop :=
  forall vals v,
    In vals (tuples b) ->
    get (combine (batch_columns b) vals) "meeting_id" = Some v ->
    truthy v = true ->
    exists id, known_meeting src id /\ py_eq v id = true.

(** The batch was read from the source table mapped to its target: its
    columns are the inserted columns of that table and each tuple lists,
    column by column, the values of one of its rows. *)
Definition from_source (src : sqlite) (b : batch) : Prop :=
  exists s rs,
    In (s, target b) tables_map
    /\ src s = Some rs
    /\ batch_columns b = insert_columns s (columns rs)
    /\ tuples b <> []
    /\ forall vals,
         In vals (tuples b) ->
         exists row,
           In row (rows rs)
           /\ lookup_all (convert_booleans s (combine (columns rs) row))
                (batch_columns b) = Some vals.

(** What the order and the names of [tables_map] provide: [meetings] is
    no dependent target, and a dependent target is fed from a dependent
    table, which is not [user_api_keys]. *)
Definition entry_shape (entry : string * string) : bool :=
  let '(s, t) := entry in
  (negb (String.eqb s "meetings")
   || negb (existsb (String.eqb t) dependent_targets))
  && (negb (existsb (String.eqb t) dependent_targets)
      || (existsb (String.eqb s) dependent_tables
          && negb (String.eqb s "user_api_keys"))).

(** The invariant of the loop over the tables. *)
Definition loop_invariant (src : sqlite) (st : state) : Prop :=
  (forall id, In id (valid_meeting_ids st) -> known_meeting src id)
  /\ forall b,
       In b (pending st) ->
       from_source src b
       /\ (In (target b) dependent_targets -> no_orphans src b).

(** A small SQLite file: one meeting, two transcripts of which one
    belongs to no meeting, one API key. *)
Definition sample : sqlite :=
  fun table =>
    if String.eqb table "meetings" then
      Some {| columns := ["id"; "title"];
              rows := [[Text "m1"; Text "Standup"]] |}
    else if String.eqb table "transcripts" then
      Some {| columns := ["id"; "meeting_id"; "transcript"];
              rows := [[Int 1; Text "m1"; Text "hello"];
                       [Int 2; Text "gone"; Text "orphan"]] |}
    else if String.eqb table "user_api_keys" then
      Some {| columns := ["user_email"; "provider"; "is_active"];
              rows := [[Text "ada@appointy.com"; Text "groq"; Int 1]] |}
    else None.

(** Postgres takes everything, or everything but the transcripts. *)
Definition accept_all (_ : list batch) (_ : batch) : bool := true.

Definition reject_transcripts (_ : list batch) (b : batch) : bool :=
  negb (String.eqb (target b) "transcript_segments").

End Migrate.

(** * Properties *)

(** ** The chunker *)

Section ChunkerFacts.
Variables (text : string) (chunk_size overlap : Z).

Lemma chunk_loop_unfold (fuel : nat) (start : Z) (chunks : list string) :
  chunk_loop (S fuel) text chunk_size overlap start chunks
  = if start <? Py.len text then
      chunk_loop fuel text chunk_size overlap
        (fst (chunk_step text chunk_size overlap start chunks))
        (snd (chunk_step text chunk_size overlap start chunks))
    else Some chunks.
Proof.
  cbn [chunk_loop].
  destruct (chunk_step text chunk_size overlap start chunks); reflexivity.
Qed.

Lemma chunk_step_cursor (start : Z) (chunks : list string) :
  fst (chunk_step text chunk_size overlap start chunks)
  = next_start text overlap (cut_end text chunk_size start).
Proof. reflexivity. Qed.

(** A separator is only accepted past the midpoint, so a cut never falls
    short of it. *)
Lemma find_cut_lower (seps : list string) (start end_ : Z) :
  start + Z.min chunk_size (chunk_size / 2 + 2) <= end_ ->
  start + Z.min chunk_size (chunk_size / 2 + 2)
  <= find_cut text seps start end_ chunk_size.
Proof.
  intros Hend. induction seps as [|sep rest IH]; cbn [find_cut].
  - exact Hend.
  - destruct (Z.ltb_spec (start + chunk_size / 2)
                (Py.rfind text sep start end_)); [lia | exact IH].
Qed.

Lemma cut_end_lower (start : Z) :
  start + Z.min chunk_size (chunk_size / 2 + 2)
  <= cut_end text chunk_size start.
Proof.
  unfold cut_end.
  destruct (start + chunk_size <? Py.len text).
  - apply find_cut_lower. lia.
  - lia.
Qed.

(** The cursor never moves if one pass maps it to itself. *)
Lemma chunk_loop_stuck (start : Z) :
  start < Py.len text ->
  next_start text overlap (cut_end text chunk_size start) = start ->
  forall fuel chunks,
    chunk_loop fuel text chunk_size overlap start chunks = None.
Proof.
  intros Hlt Hfix fuel.
  induction fuel as [|fuel IH]; intros chunks.
  - cbn [chunk_loop]. apply Z.ltb_lt in Hlt. rewrite Hlt. reflexivity.
  - rewrite chunk_loop_unfold, chunk_step_cursor, Hfix.
    apply Z.ltb_lt in Hlt. rewrite Hlt. apply IH.
Qed.

Hypothesis overlap_below_size : overlap < chunk_size.
Hypothesis overlap_below_midpoint : overlap <= chunk_size / 2 + 1.

Lemma cursor_advances (start : Z) :
  start < Py.len text ->
  start < next_start text overlap (cut_end text chunk_size start).
Proof.
  intros Hlt. unfold next_start.
  pose proof (cut_end_lower start).
  destruct (cut_end text chunk_size start <? Py.len text); lia.
Qed.

Lemma chunk_loop_total (fuel : nat) :
  forall start chunks,
    Py.len text - start <= Z.of_nat fuel ->
    exists result,
      chunk_loop fuel text chunk_size overlap start chunks = Some result.
Proof.
  induction fuel as [|fuel IH]; intros start chunks Hfuel.
  - cbn [chunk_loop].
    destruct (Z.ltb_spec start (Py.len text)); [lia | eauto].
  - rewrite chunk_loop_unfold.
    destruct (Z.ltb_spec start (Py.len text)) as [Hlt|]; [|eauto].
    apply IH. rewrite chunk_step_cursor.
    pose proof (cursor_advances start Hlt). lia.
Qed.
End ChunkerFacts.

(** More fuel does not change a result. *)
Lemma chunk_loop_more_fuel (text : string) (chunk_size overlap : Z)
    (fuel : nat) :
  forall fuel' start chunks result,
    (fuel <= fuel')%nat ->
    chunk_loop fuel text chunk_size overlap start chunks = Some result ->
    chunk_loop fuel' text chunk_size overlap start chunks = Some result.
Proof.
  induction fuel as [|fuel IH]; intros fuel' start chunks result Hle Hrun.
  - cbn [chunk_loop] in Hrun.
    destruct fuel' as [|fuel'].
    + cbn [chunk_loop]. exact Hrun.
    + rewrite chunk_loop_unfold.
      destruct (start <? Py.len text); [discriminate | exact Hrun].
  - destruct fuel' as [|fuel']; [lia|].
    rewrite chunk_loop_unfold in *.
    destruct (start <? Py.len text); [|exact Hrun].
    apply IH; [lia | exact Hrun].
Qed.

(** With the default sizes the fuel of [chunk_default] is enough. *)
Lemma chunk_default_total (text : string) :
  chunk_transcript (String.length text) text
    default_chunk_size default_overlap
  = Some (chunk_default text).
Proof.
  unfold chunk_default.
  destruct (chunk_transcript (String.length text) text default_chunk_size
              default_overlap) as [chunks|] eqn:Hrun; [reflexivity|].
  unfold chunk_transcript in Hrun.
  destruct (negb (Py.truthy text) || (Py.len text <? default_chunk_size));
    [discriminate|].
  destruct (chunk_loop_total text default_chunk_size default_overlap)
    with (fuel := String.length text) (start := 0) (chunks := @nil string)
    as [result Hres].
  - reflexivity.
  - vm_compute. discriminate.
  - unfold Py.len. lia.
  - congruence.
Qed.

(** C6, as amended: whenever [overlap < chunk_size] and
    [overlap <= chunk_size // 2 + 1] (the defaults 500 and 100 included),
    every pass that is not the last one moves the cursor forward by at
    least [min(chunk_size, chunk_size // 2 + 2) - overlap >= 1], and
    [chunk_transcript] returns: one unit of fuel per character is enough
    and more fuel gives the same chunks.  No parameter is validated: a
    call with [chunk_size <= overlap] raises nothing, for instance
    [chunk_transcript("ab", 5, 7)] returns [["ab"]]. *)
Theorem chunk_terminates_for_small_overlap :
  forall (text : string) (chunk_size overlap : Z),
    overlap < chunk_size ->
    overlap <= chunk_size / 2 + 1 ->
    (forall start chunks,
        cut_end text chunk_size start < Py.len text ->
        1 <= Z.min chunk_size (chunk_size / 2 + 2) - overlap
          <= fst (chunk_step text chunk_size overlap start chunks) - start)
    /\ (exists chunks,
          forall fuel,
            (String.length text <= fuel)%nat ->
            chunk_transcript fuel text chunk_size overlap = Some chunks)
    /\ (forall fuel, chunk_transcript fuel "ab" 5 7 = Some ["ab"]).
Proof.
  intros text chunk_size overlap Hsize Hmid. split; [|split].
  - intros start chunks Hmore.
    rewrite chunk_step_cursor. unfold next_start.
    apply Z.ltb_lt in Hmore. rewrite Hmore.
    pose proof (cut_end_lower text chunk_size start). lia.
  - unfold chunk_transcript.
    destruct (negb (Py.truthy text) || (Py.len text <? chunk_size)).
    + eexists. intros fuel _. reflexivity.
    + destruct (chunk_loop_total text chunk_size overlap Hsize Hmid
                  (String.length text) 0 [])
        as [result Hres]; [unfold Py.len; lia|].
      exists result. intros fuel Hfuel.
      eapply chunk_loop_more_fuel; eassumption.
  - intros fuel. reflexivity.
Qed.

Lemma chunk_terminates_for_small_overlap_witness :
  exists chunks,
    chunk_transcript 18 "abcdefg. hijklmnop" 10 3 = Some chunks.
Proof.
  destruct (chunk_terminates_for_small_overlap "abcdefg. hijklmnop" 10 3)
    as [_ [[chunks Hrun] _]].
  - lia.
  - vm_compute. discriminate.
  - exists chunks. apply Hrun. vm_compute. lia.
Defined.

(** C6, as stated, fails twice.  With [overlap = 8 < chunk_size = 10] a
    sentence ending at offset 7 puts the cut at 8 and the cursor back at 0,
    so no amount of fuel ends the loop; and with [chunk_size = overlap = 2]
    nothing is rejected: the loop spins in the same way. *)
Lemma chunk_loops_forever :
  (forall fuel, chunk_transcript fuel "abcdefg. hijklmnop" 10 8 = None)
  /\ (forall fuel, chunk_transcript fuel "aaaa" 2 2 = None).
Proof.
  split; intros fuel; unfold chunk_transcript;
    match goal with
    | |- (if ?b then _ else _) = _ =>
        replace b with false by (vm_compute; reflexivity)
    end;
    apply chunk_loop_stuck; vm_compute; reflexivity.
Qed.

(** C7 at the failing inputs: below [chunk_size] the text comes back as it
    is, surrounding blanks included, and a blank text comes back as a chunk
    of blanks; the loop would have stripped the first and dropped the
    second. *)
Theorem short_text_not_stripped :
  (forall fuel, chunk_transcript fuel " hi " 500 100 = Some [" hi "])
  /\ (forall fuel, chunk_transcript fuel "   " 500 100 = Some ["   "])
  /\ Py.strip " hi " = "hi"
  /\ Py.strip "   " = ""
  /\ (forall fuel, chunk_transcript fuel "" 500 100 = Some []).
Proof. repeat split. Qed.

(** C9, as amended: [chunk_transcript("A. B. C.", 4, 1)] returns the three
    chunks "A. B", "B. C" and "C.".  In neither of the first two windows
    does a sentence ending lie past the midpoint, so both are cut at the
    raw [chunk_size] boundary, inside a sentence; only the last chunk ends
    in a delimiter. *)
Theorem chunk_abc_hard_cuts :
  forall fuel,
    chunk_transcript (3 + fuel) "A. B. C." 4 1
    = Some ["A. B"; "B. C"; "C."].
Proof.
  intros fuel.
  apply chunk_loop_more_fuel with (fuel := 3%nat); [lia|].
  vm_compute. reflexivity.
Qed.

(** C9, as stated, fails: two of the three chunks do not end in a
    delimiter. *)
Lemma chunk_abc_not_at_sentence_ends :
  option_map (map ends_in_delimiter) (chunk_transcript 3 "A. B. C." 4 1)
  = Some [false; false; true].
Proof. vm_compute. reflexivity. Qed.

(** ** Statements and transactions *)

Lemma round_trip_cases (fault : option nat) (c : conn) :
  round_trip fault c = (inl StorageError, c)
  \/ round_trip fault c = (inr tt, tick c).
Proof.
  unfold round_trip. destruct fault as [k|]; [|auto].
  destruct (Nat.eqb k (clock c)); auto.
Qed.

Lemma keeps_committed_bind {A B : Type} (op : DB A) (k : A -> DB B) :
  keeps_committed op ->
  (forall a, keeps_committed (k a)) ->
  keeps_committed (bind op k).
Proof.
  intros Hop Hk c r c' Htx Hrun. unfold bind in Hrun.
  destruct (op c) as [[e|a] c1] eqn:Hfirst.
  - inversion Hrun; subst. eapply Hop; eassumption.
  - destruct (Hop _ _ _ Htx Hfirst) as (Hd & Ht & Hm).
    destruct (Hk a _ _ _ Ht Hrun) as (Hd' & Ht' & Hm').
    repeat split; congruence.
Qed.

Lemma keeps_committed_round_trip (fault : option nat) :
  keeps_committed (round_trip fault).
Proof.
  intros c r c' Htx Hrun.
  destruct (round_trip_cases fault c) as [H|H]; rewrite H in Hrun;
    inversion Hrun; subst; auto.
Qed.

Lemma keeps_committed_delete (fault : option nat) (m : string) :
  keeps_committed (execute_delete fault m).
Proof.
  unfold execute_delete.
  apply keeps_committed_bind; [apply keeps_committed_round_trip|].
  intros _ c r c' Htx Hrun. cbv [bind read write] in Hrun.
  inversion Hrun; subst. cbn. rewrite Htx. auto.
Qed.

Lemma keeps_committed_insert (fault : option nat) (r : embedding_row) :
  keeps_committed (execute_insert fault r).
Proof.
  unfold execute_insert.
  apply keeps_committed_bind; [apply keeps_committed_round_trip|].
  intros _ c res c' Htx Hrun. cbv [bind read write raise] in Hrun.
  destruct (has_meeting (meeting_id r) (view c));
    inversion Hrun; subst; cbn; rewrite ?Htx; auto.
Qed.

Lemma keeps_committed_executemany (fault : option nat)
    (records : list embedding_row) :
  keeps_committed (executemany fault records).
Proof.
  induction records as [|r rest IH]; cbn [executemany].
  - intros c res c' Htx Hrun. inversion Hrun; subst. auto.
  - apply keeps_committed_bind; [apply keeps_committed_insert|].
    intros _. exact IH.
Qed.

Lemma keeps_committed_body (fault : option nat) (m : string)
    (records : list embedding_row) :
  keeps_committed (refresh_body fault m records).
Proof.
  unfold refresh_body.
  apply keeps_committed_bind; [apply keeps_committed_delete|].
  intros _. apply keeps_committed_executemany.
Qed.

(** The view after a statement that went through. *)
Lemma execute_delete_ok (fault : option nat) (m : string) (c c' : conn)
    (u : unit) :
  execute_delete fault m c = (inr u, c') ->
  view c'
  = with_embeddings (view c)
      (filter (fun r => negb (String.eqb (meeting_id r) m))
              (meeting_embeddings (view c))).
Proof.
  unfold execute_delete. cbv [bind read write]. intros Hrun.
  destruct (round_trip_cases fault c) as [H|H]; rewrite H in Hrun;
    inversion Hrun; subst; reflexivity.
Qed.

Lemma execute_insert_ok (fault : option nat) (r : embedding_row)
    (c c' : conn) (u : unit) :
  execute_insert fault r c = (inr u, c') ->
  view c' = with_embeddings (view c) (meeting_embeddings (view c) ++ [r]).
Proof.
  unfold execute_insert. cbv [bind read write raise]. intros Hrun.
  destruct (round_trip_cases fault c) as [H|H]; rewrite H in Hrun;
    [discriminate|].
  cbn in Hrun.
  destruct (has_meeting (meeting_id r) (view c));
    inversion Hrun; subst; reflexivity.
Qed.

Lemma executemany_ok (fault : option nat) (records : list embedding_row) :
  forall c c' u,
    executemany fault records c = (inr u, c') ->
    view c'
    = with_embeddings (view c) (meeting_embeddings (view c) ++ records).
Proof.
  induction records as [|r rest IH]; intros c c' u Hrun;
    cbn [executemany] in Hrun.
  - inversion Hrun; subst. rewrite app_nil_r.
    destruct (view c'); reflexivity.
  - unfold bind in Hrun.
    destruct (execute_insert fault r c) as [[e|u1] c1] eqn:Hins;
      [discriminate|].
    apply execute_insert_ok in Hins. apply IH in Hrun.
    rewrite Hrun, Hins. cbn. rewrite <- app_assoc. reflexivity.
Qed.

Lemma refresh_body_ok (fault : option nat) (m : string)
    (records : list embedding_row) (c c' : conn) (u : unit) :
  refresh_body fault m records c = (inr u, c') ->
  view c'
  = with_embeddings (view c)
      (filter (fun r => negb (String.eqb (meeting_id r) m))
              (meeting_embeddings (view c)) ++ records).
Proof.
  unfold refresh_body, bind. intros Hrun.
  destruct (execute_delete fault m c) as [[e|u1] c1] eqn:Hdel;
    [discriminate|].
  apply execute_delete_ok in Hdel. apply executemany_ok in Hrun.
  rewrite Hrun, Hdel. reflexivity.
Qed.

(** A transaction is all or nothing: an exception leaves the committed
    tables as they were, and a normal end commits the view its body
    built. *)
Lemma transaction_atomic {A : Type} (fault : option nat) (body : DB A)
    (c c' : conn) (r : exn + A) :
  keeps_committed body ->
  transaction fault body c = (r, c') ->
  match r with
  | inl _ => durable c' = durable c
  | inr a =>
      exists c1 c2,
        view c1 = view c /\ body c1 = (inr a, c2) /\ durable c' = view c2
  end.
Proof.
  intros Hbody Hrun. unfold transaction in Hrun.
  cbv [bind set_transaction] in Hrun.
  destruct (round_trip_cases fault c) as [H|H]; rewrite H in Hrun.
  - inversion Hrun; subst. reflexivity.
  - match type of Hrun with
    | context [body ?c0] => remember c0 as c1 eqn:Hc1
    end.
    assert (Htx : in_transaction c1 = true) by (subst c1; reflexivity).
    assert (Hd1 : durable c1 = durable c) by (subst c1; reflexivity).
    assert (Hv1 : view c1 = view c) by (subst c1; reflexivity).
    destruct (body c1) as [[e|a] c2] eqn:Hb.
    + inversion Hrun; subst r c'. cbn.
      destruct (Hbody _ _ _ Htx Hb) as (Hd & _). congruence.
    + destruct (Hbody _ _ _ Htx Hb) as (Hd & _).
      destruct (round_trip_cases fault c2) as [H2|H2]; rewrite H2 in Hrun;
        inversion Hrun; subst r c'; cbn.
      * congruence.
      * exists c1, c2. auto.
Qed.

(** ** Refresh *)

Lemma records_from_meeting (m : string) (pairs : list (string * vector)) :
  forall i,
    Forall (fun r => meeting_id r = m) (records_from m i pairs).
Proof.
  induction pairs as [|[chunk v] rest IH]; intros i; cbn [records_from];
    constructor; auto.
Qed.

Lemma records_from_indices (m : string) (pairs : list (string * vector)) :
  forall k,
    map chunk_index (records_from m (Z.of_nat k) pairs)
    = map Z.of_nat (seq k (List.length pairs)).
Proof.
  induction pairs as [|[chunk v] rest IH]; intros k; cbn; [reflexivity|].
  f_equal. replace (Z.of_nat k + 1) with (Z.of_nat (S k)) by lia. apply IH.
Qed.

Lemma records_from_content (m : string) (pairs : list (string * vector)) :
  forall i, map content (records_from m i pairs) = map fst pairs.
Proof.
  induction pairs as [|[chunk v] rest IH]; intros i; cbn; [reflexivity|].
  f_equal. apply IH.
Qed.

Lemma records_from_length (m : string) (pairs : list (string * vector)) :
  forall i, List.length (records_from m i pairs) = List.length pairs.
Proof.
  induction pairs as [|[chunk v] rest IH]; intros i; cbn; auto.
Qed.

Lemma combine_fst_same_length {A B : Type} (l : list A) :
  forall l' : list B,
    List.length l' = List.length l -> map fst (combine l l') = l.
Proof.
  induction l as [|a l IH]; intros [|b l'] Hlen; cbn in *;
    try discriminate; [reflexivity|].
  f_equal. apply IH. lia.
Qed.

Lemma filter_all {A : Type} (f : A -> bool) (l : list A) :
  Forall (fun x => f x = true) l -> filter f l = l.
Proof.
  induction 1 as [|x l Hx _ IH]; cbn; [reflexivity|].
  rewrite Hx, IH. reflexivity.
Qed.

Lemma filter_none {A : Type} (f : A -> bool) (l : list A) :
  Forall (fun x => f x = false) l -> filter f l = [].
Proof.
  induction 1 as [|x l Hx _ IH]; cbn; [reflexivity|].
  rewrite Hx, IH. reflexivity.
Qed.

Lemma filter_filter {A : Type} (f g : A -> bool) (l : list A) :
  filter f (filter g l) = filter (fun x => f x && g x) l.
Proof.
  induction l as [|x l IH]; cbn; [reflexivity|].
  destruct (g x); cbn; rewrite ?andb_true_r, ?andb_false_r;
    [destruct (f x)|]; rewrite IH; reflexivity.
Qed.

(** After a committed refresh the meeting holds the new records only. *)
Lemma rows_of_refreshed (d : database) (m : string)
    (records : list embedding_row) :
  Forall (fun r => meeting_id r = m) records ->
  rows_of m (refreshed d m records) = records.
Proof.
  intros Hm. unfold rows_of, refreshed. cbn.
  rewrite filter_app, filter_filter, filter_none, filter_all.
  - reflexivity.
  - eapply Forall_impl; [|exact Hm]. intros r Hr. cbn in Hr.
    apply String.eqb_eq. exact Hr.
  - apply Forall_forall. intros r _.
    destruct (String.eqb (meeting_id r) m); reflexivity.
Qed.

(** The rows of every other meeting are the same as before. *)
Lemma rows_of_refreshed_other (d : database) (m m' : string)
    (records : list embedding_row) :
  m' <> m ->
  Forall (fun r => meeting_id r = m) records ->
  rows_of m' (refreshed d m records) = rows_of m' d.
Proof.
  intros Hne Hm. unfold rows_of, refreshed. cbn.
  rewrite filter_app, filter_filter, (filter_none _ records), app_nil_r.
  - apply filter_ext. intros r.
    destruct (String.eqb_spec (meeting_id r) m');
      destruct (String.eqb_spec (meeting_id r) m); cbn; congruence.
  - eapply Forall_impl; [|exact Hm]. intros r Hr. cbn in Hr.
    apply String.eqb_neq. congruence.
Qed.

Lemma close_durable (fault : option nat) (c : conn) :
  durable (snd (close fault c)) = durable c.
Proof.
  unfold close.
  destruct (round_trip_cases fault c) as [H|H]; rewrite H; reflexivity.
Qed.

(** The ways a refresh can end: nothing changed and 0 returned, or the new
    set committed; in the latter case the count is returned unless closing
    the connection raised, which turns the result into 0. *)
Lemma store_outcome (ext : externals) (fault : option nat) (d : database)
    (m : string) (transcripts : list transcript) :
  store_meeting_embeddings ext fault d m transcripts = (d, 0)
  \/ exists model embeddings,
       get_embedding_model ext = Some model
       /\ encode_batch model (derived_chunks transcripts) = Some embeddings
       /\ derived_chunks transcripts <> []
       /\ exists n,
            (n = Z.of_nat (List.length (derived_chunks transcripts))
             \/ n = 0)
            /\ store_meeting_embeddings ext fault d m transcripts
               = (refreshed d m
                    (records_from m 0
                       (combine (derived_chunks transcripts) embeddings)),
                  n).
Proof.
  unfold store_meeting_embeddings.
  destruct (get_embedding_model ext) as [model|]; [|auto].
  fold (full_text transcripts).
  destruct (negb (Py.truthy (Py.strip (full_text transcripts)))); [auto|].
  fold (derived_chunks transcripts).
  destruct (derived_chunks transcripts) as [|chunk chunks] eqn:Hchunks;
    [auto|].
  destruct (encode_batch model (chunk :: chunks)) as [embeddings|] eqn:Henc;
    [|auto].
  unfold get_db_connection.
  match goal with
  | |- context [round_trip fault ?c0] =>
      destruct (round_trip_cases fault c0) as [H|H]; rewrite H
  end; [auto|].
  match goal with
  | |- context [transaction fault ?body ?c0] =>
      destruct (transaction fault body c0) as [[e|u] c'] eqn:Htx;
        apply transaction_atomic in Htx;
        try apply keeps_committed_body
  end.
  - left. rewrite close_durable, Htx. reflexivity.
  - right. exists model, embeddings.
    destruct Htx as (c1 & c2 & Hv & Hbody & Hd).
    apply refresh_body_ok in Hbody.
    assert (Hnew : durable c'
                   = refreshed d m
                       (records_from m 0
                          (combine (chunk :: chunks) embeddings))).
    { rewrite Hd, Hbody, Hv. reflexivity. }
    repeat split; try assumption; try discriminate.
    pose proof (close_durable fault c') as Hclose.
    destruct (close fault c') as [[e|u'] c'']; cbn [snd] in Hclose;
      rewrite Hclose, Hnew; eauto.
Qed.

Lemma sample_length_preserving : length_preserving Sample.up.
Proof.
  intros model texts vectors Hmodel Henc.
  inversion Hmodel; subst model. cbn in Henc.
  inversion Henc; subst vectors. apply length_map.
Qed.

(** C1, as amended: after a refresh that reports a positive count, the
    rows stored for the meeting are exactly the records built from the
    chunks of the text just given, in order, with nothing left of the
    earlier rows, and the rows of every other meeting are untouched.  A
    refresh whose text is empty or blank returns 0 and leaves the tables
    as they were, so the chunks stored before stay. *)
Theorem refresh_replaces_wholesale :
  forall ext fault d m transcripts d' n,
    length_preserving ext ->
    store_meeting_embeddings ext fault d m transcripts = (d', n) ->
    (0 < n ->
     map content (rows_of m d') = derived_chunks transcripts
     /\ (exists model embeddings,
           get_embedding_model ext = Some model
           /\ encode_batch model (derived_chunks transcripts)
              = Some embeddings
           /\ rows_of m d'
              = records_from m 0
                  (combine (derived_chunks transcripts) embeddings))
     /\ (forall m', m' <> m -> rows_of m' d' = rows_of m' d))
    /\ (Py.strip (full_text transcripts) = "" -> d' = d /\ n = 0).
Proof.
  intros ext fault d m transcripts d' n Hlen Hrun. split.
  - intros Hpos.
    destruct (store_outcome ext fault d m transcripts)
      as [Hno|(model & embeddings & Hmodel & Henc & _ & n' & _ & Hyes)];
      rewrite Hrun in *.
    + inversion Hno; lia.
    + inversion Hyes; subst d' n'.
      pose proof (records_from_meeting m
                    (combine (derived_chunks transcripts) embeddings) 0)
        as Hm.
      rewrite rows_of_refreshed by exact Hm.
      repeat split.
      * rewrite records_from_content.
        apply combine_fst_same_length. eapply Hlen; eassumption.
      * exists model, embeddings. auto.
      * intros m' Hne. apply rows_of_refreshed_other; assumption.
  - intros Hblank. unfold store_meeting_embeddings in Hrun.
    fold (full_text transcripts) in Hrun. rewrite Hblank in Hrun.
    destruct (get_embedding_model ext); inversion Hrun; auto.
Qed.

Lemma refresh_replaces_wholesale_witness :
  map content
    (rows_of "m1"
       (fst (store_meeting_embeddings Sample.up None Sample.db1 "m1"
               (Sample.says "good morning"))))
  = ["good morning"].
Proof.
  destruct (refresh_replaces_wholesale Sample.up None Sample.db1 "m1"
              (Sample.says "good morning")
              (fst (store_meeting_embeddings Sample.up None Sample.db1 "m1"
                      (Sample.says "good morning")))
              1 sample_length_preserving)
    as [Hnew _].
  - vm_compute. reflexivity.
  - destruct Hnew as [Hcontent _]; [lia|].
    rewrite Hcontent. vm_compute. reflexivity.
Defined.

(** C1, as stated, fails on its own scenario: after [m1] was refreshed with
    "hello world", a refresh of [m1] with no transcripts returns 0 without
    deleting anything, and the old chunk is still stored. *)
Lemma empty_refresh_keeps_old_chunks :
  let d1 :=
    fst (store_meeting_embeddings Sample.up None Sample.empty_db "m1"
           (Sample.says "hello world")) in
  snd (store_meeting_embeddings Sample.up None d1 "m1" []) = 0
  /\ map content
       (rows_of "m1" (fst (store_meeting_embeddings Sample.up None d1 "m1" [])))
     = ["hello world"].
Proof. vm_compute. split; reflexivity. Qed.

(** C3, as amended: when the model cannot be loaded or its call raises,
    a refresh returns 0 and leaves the tables unchanged and a search
    returns the empty list.  These are the values of a call that ran and
    found nothing to index or nothing to match: the module has no separate
    error channel. *)
Theorem provider_failure_returns_empty :
  forall ext fault d m transcripts query n allowed,
    (provider_fails_refresh ext transcripts ->
     store_meeting_embeddings ext fault d m transcripts = (d, 0))
    /\ (provider_fails_search ext query ->
        search_context ext fault d query n allowed = []).
Proof.
  intros ext fault d m transcripts query n allowed.
  unfold provider_fails_refresh, provider_fails_search. split; intros Hdown.
  - unfold store_meeting_embeddings.
    destruct (get_embedding_model ext) as [model|]; [|reflexivity].
    fold (full_text transcripts). fold (derived_chunks transcripts).
    rewrite Hdown.
    destruct (negb (Py.truthy (Py.strip (full_text transcripts))));
      [reflexivity|].
    destruct (derived_chunks transcripts); reflexivity.
  - unfold search_context.
    destruct (get_embedding_model ext) as [model|]; [|reflexivity].
    rewrite Hdown. reflexivity.
Qed.

Lemma provider_failure_returns_empty_witness :
  store_meeting_embeddings Sample.down None Sample.db1 "m1"
    (Sample.says "good morning") = (Sample.db1, 0)
  /\ search_context Sample.down None Sample.db1 "hello" 5 None = [].
Proof.
  destruct (provider_failure_returns_empty Sample.down None Sample.db1 "m1"
              (Sample.says "good morning") "hello" 5 None) as [Hr Hs].
  split; [apply Hr | apply Hs]; exact I.
Defined.

(** C3, as stated, fails: with the model unavailable, a refresh and a
    search return the very values that calls with a working model return
    when there is nothing to index and nothing to match. *)
Lemma provider_failure_looks_like_success :
  snd (store_meeting_embeddings Sample.down None Sample.db1 "m1"
         (Sample.says "good morning"))
  = snd (store_meeting_embeddings Sample.up None Sample.db1 "m1" [])
  /\ search_context Sample.down None Sample.db1 "hello" 5 None
     = search_context Sample.up None Sample.db1 "hello" 5 (Some ["m2"]).
Proof. vm_compute. split; reflexivity. Qed.



(** ** Search *)

Section OrderingFacts.
Context {A : Type} (key : A -> Q).

Lemma insert_by_perm (x : A) (l : list A) :
  Permutation (insert_by key x l) (x :: l).
Proof.
  induction l as [|y l IH]; cbn; [reflexivity|].
  destruct (Qle_bool (key x) (key y)); [reflexivity|].
  rewrite IH. apply perm_swap.
Qed.

Lemma sort_by_perm (l : list A) : Permutation (sort_by key l) l.
Proof.
  induction l as [|x l IH]; cbn; [reflexivity|].
  rewrite insert_by_perm. constructor. exact IH.
Qed.

Lemma insert_by_sorted (x : A) (l : list A) :
  StronglySorted (fun a b => key a <= key b)%Q l ->
  StronglySorted (fun a b => key a <= key b)%Q (insert_by key x l).
Proof.
  induction 1 as [|y l Hsorted IH Hall]; cbn.
  - repeat constructor.
  - destruct (Qle_bool (key x) (key y)) eqn:Hle.
    + apply Qle_bool_iff in Hle.
      constructor; [constructor; assumption|].
      constructor; [exact Hle|].
      eapply Forall_impl; [|exact Hall].
      intros z Hz. cbn in Hz. eapply Qle_trans; eassumption.
    + constructor; [exact IH|].
      assert (Hyx : (key y <= key x)%Q).
      { apply Qlt_le_weak, Qnot_le_lt. intros Hxy.
        apply Qle_bool_iff in Hxy. congruence. }
      eapply Permutation_Forall.
      * symmetry. apply insert_by_perm.
      * constructor; assumption.
Qed.

Lemma sort_by_sorted (l : list A) :
  StronglySorted (fun a b => key a <= key b)%Q (sort_by key l).
Proof.
  induction l as [|x l IH]; cbn; [constructor|].
  apply insert_by_sorted, IH.
Qed.
End OrderingFacts.

Lemma in_firstn_in {A : Type} (l : list A) :
  forall k x, In x (firstn k l) -> In x l.
Proof.
  induction l as [|y l IH]; intros [|k] x Hin; cbn in *; try contradiction.
  destruct Hin as [Hin|Hin]; [auto | right; eapply IH; exact Hin].
Qed.

Lemma firstn_sorted {A : Type} (R : A -> A -> Prop) (l : list A) :
  forall k, StronglySorted R l -> StronglySorted R (firstn k l).
Proof.
  induction l as [|x l IH]; intros [|k] Hsorted; cbn; try constructor.
  - apply IH. inversion Hsorted; assumption.
  - inversion Hsorted as [|? ? _ Hall]; subst.
    apply Forall_forall. intros y Hy.
    rewrite Forall_forall in Hall. apply Hall.
    eapply in_firstn_in; eassumption.
Qed.

Lemma map_sorted {A B : Type} (f : A -> B) (R : A -> A -> Prop)
    (S : B -> B -> Prop) (l : list A) :
  (forall a b, R a b -> S (f a) (f b)) ->
  StronglySorted R l -> StronglySorted S (map f l).
Proof.
  intros Hmono. induction 1 as [|x l _ IH Hall]; cbn; constructor.
  - exact IH.
  - apply Forall_map. eapply Forall_impl; [|exact Hall]. auto.
Qed.

(** The statement the code builds, evaluated. *)
Lemma run_select_built (ext : externals) (d : database) (qv : vector)
    (n : Z) (allowed : option (list string)) :
  run_select ext (fst (build_query qv n allowed))
    (snd (build_query qv n allowed)) d
  = if n <? 0 then None
    else Some (map (select_row ext qv)
                 (firstn (Z.to_nat n)
                    (sort_by (distance_to ext qv) (candidates d allowed)))).
Proof. destruct allowed as [[|i ids]|]; reflexivity. Qed.

(** A search returns nothing or the ranking of its candidates. *)
Lemma search_context_cases (ext : externals) (fault : option nat)
    (d : database) (query : string) (n : Z)
    (allowed : option (list string)) :
  search_context ext fault d query n allowed = []
  \/ exists model qv,
       get_embedding_model ext = Some model
       /\ encode model query = Some qv
       /\ 0 <= n
       /\ search_context ext fault d query n allowed
          = ranking ext d qv n allowed.
Proof.
  unfold search_context.
  destruct (get_embedding_model ext) as [model|] eqn:Hmodel; [|auto].
  destruct (encode model query) as [qv|] eqn:Henc; [|auto].
  unfold get_db_connection.
  match goal with
  | |- context [round_trip fault ?c0] =>
      destruct (round_trip_cases fault c0) as [H|H]; rewrite H
  end; [auto|].
  pose proof (run_select_built ext d qv n allowed) as Hsel.
  destruct (build_query qv n allowed) as [sql args]. cbn [fst snd] in Hsel.
  unfold fetch. cbv [bind read].
  match goal with
  | |- context [round_trip fault ?c0] =>
      destruct (round_trip_cases fault c0) as [H1|H1]; rewrite H1
  end; [auto|].
  cbn [tick view]. rewrite Hsel.
  destruct (Z.ltb_spec n 0); cbv [raise ret]; [auto|].
  unfold close.
  match goal with
  | |- context [round_trip fault ?c0] =>
      destruct (round_trip_cases fault c0) as [H2|H2]; rewrite H2
  end; [auto|].
  right. exists model, qv. repeat split; try assumption.
  unfold ranking. rewrite map_map. reflexivity.
Qed.

(** Without a fault, with a working model and a limit that is not
    negative, the search does run. *)
Lemma search_context_runs (ext : externals) (d : database) (query : string)
    (n : Z) (allowed : option (list string)) (model : embedding_model)
    (qv : vector) :
  get_embedding_model ext = Some model ->
  encode model query = Some qv ->
  0 <= n ->
  search_context ext None d query n allowed = ranking ext d qv n allowed.
Proof.
  intros Hmodel Henc Hn. unfold search_context. rewrite Hmodel, Henc.
  pose proof (run_select_built ext d qv n allowed) as Hsel.
  destruct (build_query qv n allowed) as [sql args]. cbn [fst snd] in Hsel.
  cbn. rewrite Hsel.
  destruct (Z.ltb_spec n 0); [lia|].
  cbv [ret]. unfold ranking. rewrite map_map. reflexivity.
Qed.

(** Every ranked match comes from a candidate row. *)
Lemma ranking_from_candidates (ext : externals) (d : database) (qv : vector)
    (n : Z) (allowed : option (list string)) (hit : Hit.t) :
  In hit (ranking ext d qv n allowed) ->
  exists p, In p (candidates d allowed) /\ hit = hit_of ext qv p.
Proof.
  unfold ranking. intros Hin. apply in_map_iff in Hin.
  destruct Hin as (p & Hp & Hin). exists p. split; [|auto].
  apply in_firstn_in in Hin.
  eapply Permutation_in; [apply sort_by_perm | exact Hin].
Qed.

Lemma joined_from_table (d : database) (p : embedding_row * meeting) :
  In p (joined d) ->
  In (fst p) (meeting_embeddings d) /\ In (snd p) (meetings d)
  /\ meeting_id (fst p) = id (snd p).
Proof.
  unfold joined. intros Hin. apply in_flat_map in Hin.
  destruct Hin as (e & He & Hin). apply in_map_iff in Hin.
  destruct Hin as (m & Hp & Hm). apply filter_In in Hm.
  destruct Hm as [Hm Heq]. subst p. cbn.
  apply String.eqb_eq in Heq. auto.
Qed.

Lemma candidates_joined (d : database) (allowed : option (list string))
    (p : embedding_row * meeting) :
  In p (candidates d allowed) -> In p (joined d).
Proof.
  destruct allowed as [[|i ids]|]; cbn [candidates]; auto.
  intros Hin. apply filter_In in Hin. tauto.
Qed.

(** C2: with a non-empty allow-list and a positive limit, every match a
    search returns belongs to a meeting of the list, whatever the other
    meetings would score. *)
Theorem search_respects_allow_list :
  forall ext fault d query n allowed hit,
    allowed <> [] ->
    0 < n ->
    In hit (search_context ext fault d query n (Some allowed)) ->
    In (Hit.meeting_id hit) allowed.
Proof.
  intros ext fault d query n allowed hit Hne Hn Hin.
  destruct (search_context_cases ext fault d query n (Some allowed))
    as [Hnone|(model & qv & _ & _ & _ & Hrank)].
  - rewrite Hnone in Hin. contradiction.
  - rewrite Hrank in Hin. apply ranking_from_candidates in Hin.
    destruct Hin as (p & Hp & Hhit). subst hit.
    destruct allowed as [|i ids]; [congruence|].
    cbn [candidates] in Hp. apply filter_In in Hp. destruct Hp as [_ Hp].
    apply existsb_exists in Hp. destruct Hp as (x & Hx & Heq).
    apply String.eqb_eq in Heq. cbn. rewrite Heq. exact Hx.
Qed.

(** The chunk of [m2] is nearer to the query than the chunk of [m1], and
    still the search restricted to [m1] returns the chunk of [m1]. *)
Lemma search_respects_allow_list_witness :
  map Hit.meeting_id
    (search_context Sample.up None Sample.db2 "hello" 5 None)
  = ["m2"; "m1"]
  /\ In (Hit.meeting_id Sample.m1_hit) ["m1"].
Proof.
  split; [vm_compute; reflexivity|].
  apply (search_respects_allow_list Sample.up None Sample.db2 "hello" 5
           ["m1"] Sample.m1_hit).
  - discriminate.
  - lia.
  - vm_compute. left. reflexivity.
Defined.

Lemma similarity_antitone (ext : externals) (qv : vector)
    (p p' : embedding_row * meeting) :
  (distance_to ext qv p <= distance_to ext qv p')%Q ->
  (Hit.similarity (hit_of ext qv p') <= Hit.similarity (hit_of ext qv p))%Q.
Proof.
  unfold distance_to. cbn. intros Hle.
  apply Qplus_le_r, Qopp_le_compat. exact Hle.
Qed.

(** The nearest candidate comes first: a candidate at distance 0, with all
    others farther away, heads the ranking. *)
Lemma ranking_head (ext : externals) (d : database) (qv : vector) (n : Z)
    (allowed : option (list string)) (p : embedding_row * meeting) :
  0 < n ->
  In p (candidates d allowed) ->
  (distance_to ext qv p == 0)%Q ->
  (forall p',
      In p' (candidates d allowed) ->
      p' = p \/ (0 < distance_to ext qv p')%Q) ->
  exists rest, ranking ext d qv n allowed = hit_of ext qv p :: rest.
Proof.
  intros Hn Hin Hzero Hothers. unfold ranking.
  pose proof (sort_by_perm (distance_to ext qv) (candidates d allowed))
    as Hperm.
  pose proof (sort_by_sorted (distance_to ext qv) (candidates d allowed))
    as Hsorted.
  assert (Hp : In p (sort_by (distance_to ext qv) (candidates d allowed))).
  { eapply Permutation_in; [symmetry; exact Hperm | exact Hin]. }
  destruct (sort_by (distance_to ext qv) (candidates d allowed))
    as [|h rest]; [contradiction|].
  replace (Z.to_nat n) with (S (Z.to_nat (n - 1))) by lia.
  cbn [firstn map].
  assert (Hh : h = p).
  { destruct (Hothers h) as [Heq|Hpos]; [|exact Heq|].
    - eapply Permutation_in; [exact Hperm | left; reflexivity].
    - exfalso.
      assert (Hle : (distance_to ext qv h <= distance_to ext qv p)%Q).
      { destruct Hp as [Hp|Hp]; [subst; apply Qle_refl|].
        inversion Hsorted as [|? ? _ Hall]; subst.
        rewrite Forall_forall in Hall. apply Hall. exact Hp. }
      rewrite Hzero in Hle.
      apply (Qlt_not_le _ _ Hpos Hle). }
  subst h. eexists. reflexivity.
Qed.

(** C5, as amended: a search returns at most [limit] matches (none for a
    limit below 1), sorted by similarity descending, where the similarity
    of a match is 1 minus the cosine distance between the query vector and
    the chunk's embedding.  When the distance of a vector to itself is 0,
    a chunk whose embedding is the query vector has similarity 1, and it
    is the first match whenever the search runs with a positive limit and
    every other candidate lies at a positive distance.  The order of
    matches of equal similarity is not fixed by document identifier and
    chunk index: the statement orders by distance alone. *)
Theorem search_ranked_by_similarity :
  forall ext fault d query n allowed,
    let hits := search_context ext fault d query n allowed in
    Z.of_nat (List.length hits) <= Z.max 0 n
    /\ StronglySorted
         (fun a b => Hit.similarity b <= Hit.similarity a)%Q hits
    /\ (forall hit,
          In hit hits ->
          exists model qv p,
            get_embedding_model ext = Some model
            /\ encode model query = Some qv
            /\ In p (candidates d allowed)
            /\ hit = hit_of ext qv p
            /\ Hit.similarity hit
               = (1 - cosine_distance ext (embedding (fst p)) qv)%Q)
    /\ (forall model qv p,
          get_embedding_model ext = Some model ->
          encode model query = Some qv ->
          fault = None ->
          0 < n ->
          In p (candidates d allowed) ->
          embedding (fst p) = qv ->
          (cosine_distance ext qv qv == 0)%Q ->
          (forall p',
              In p' (candidates d allowed) ->
              p' = p \/ (0 < distance_to ext qv p')%Q) ->
          (Hit.similarity (hit_of ext qv p) == 1)%Q
          /\ exists rest, hits = hit_of ext qv p :: rest).
Proof.
  intros ext fault d query n allowed hits.
  split; [|split; [|split]].
  - destruct (search_context_cases ext fault d query n allowed)
      as [Hnone|(model & qv & _ & _ & Hn & Hrank)]; subst hits.
    + rewrite Hnone. cbn. lia.
    + rewrite Hrank. unfold ranking.
      rewrite length_map, length_firstn. lia.
  - destruct (search_context_cases ext fault d query n allowed)
      as [Hnone|(model & qv & _ & _ & _ & Hrank)]; subst hits.
    + rewrite Hnone. constructor.
    + rewrite Hrank. unfold ranking.
      apply map_sorted
        with (R := fun a b => (distance_to ext qv a
                               <= distance_to ext qv b)%Q).
      * apply similarity_antitone.
      * apply firstn_sorted, sort_by_sorted.
  - intros hit Hin.
    destruct (search_context_cases ext fault d query n allowed)
      as [Hnone|(model & qv & Hmodel & Henc & _ & Hrank)]; subst hits.
    + rewrite Hnone in Hin. contradiction.
    + rewrite Hrank in Hin. apply ranking_from_candidates in Hin.
      destruct Hin as (p & Hp & Hhit).
      exists model, qv, p. subst hit. repeat split; auto.
  - intros model qv p Hmodel Henc Hfault Hn Hin Hsame Hself Hothers.
    assert (Hzero : (distance_to ext qv p == 0)%Q).
    { unfold distance_to. rewrite Hsame. exact Hself. }
    split.
    + change (Hit.similarity (hit_of ext qv p))
        with (1 - distance_to ext qv p)%Q.
      rewrite Hzero. reflexivity.
    + subst hits fault.
      rewrite (search_context_runs ext d query n allowed model qv)
        by (auto; lia).
      apply ranking_head; assumption.
Qed.

(** The query "hello!" has the embedding of the chunk of [m2]: that chunk
    comes first, with similarity 1. *)
Lemma search_ranked_by_similarity_witness :
  (Hit.similarity (hit_of Sample.up (Sample.embed "hello!")
                     Sample.m2_candidate) == 1)%Q
  /\ exists rest,
       search_context Sample.up None Sample.db2 "hello!" 5 None
       = hit_of Sample.up (Sample.embed "hello!") Sample.m2_candidate
         :: rest.
Proof.
  pose proof (search_ranked_by_similarity Sample.up None Sample.db2
                "hello!" 5 None) as H.
  cbv zeta in H. destruct H as (_ & _ & _ & Hfirst).
  apply (Hfirst Sample.model (Sample.embed "hello!") Sample.m2_candidate).
  - reflexivity.
  - reflexivity.
  - reflexivity.
  - lia.
  - vm_compute. right. left. reflexivity.
  - reflexivity.
  - vm_compute. reflexivity.
  - intros p' Hin. vm_compute in Hin.
    destruct Hin as [Hp|[Hp|[]]]; subst p'.
    + right. vm_compute. reflexivity.
    + left. reflexivity.
Defined.

(** C5, as stated, fails on ties: with [m2] stored before [m1] and both
    chunks at the same distance from the query, the match of [m2] comes
    back first although [m1] is the smaller identifier. *)
Lemma search_ties_keep_table_order :
  map Hit.meeting_id
    (search_context Sample.up None Sample.tied_db "hello" 5 None)
  = ["m2"; "m1"]
  /\ map (fun hit => Qeq_bool (Hit.similarity hit) 1)
       (search_context Sample.up None Sample.tied_db "hello" 5 None)
     = [true; true]
  /\ ranked_with_ties
       (search_context Sample.up None Sample.tied_db "hello" 5 None)
     = false.
Proof. vm_compute. repeat split; reflexivity. Qed.

(** C10: an empty allow-list is treated as no allow-list.  The search
    returns what it returns for [None], and when it runs that is the
    ranking over every joined row of the table, unfiltered. *)
Theorem empty_allow_list_is_unrestricted :
  forall ext fault d query n,
    search_context ext fault d query n (Some [])
    = search_context ext fault d query n None
    /\ (forall model qv,
          get_embedding_model ext = Some model ->
          encode model query = Some qv ->
          fault = None ->
          0 <= n ->
          search_context ext fault d query n (Some [])
          = map (hit_of ext qv)
              (firstn (Z.to_nat n)
                 (sort_by (distance_to ext qv) (joined d)))).
Proof.
  intros ext fault d query n. split; [reflexivity|].
  intros model qv Hmodel Henc Hfault Hn. subst fault.
  rewrite (search_context_runs ext d query n (Some []) model qv)
    by assumption.
  reflexivity.
Qed.

Lemma empty_allow_list_is_unrestricted_witness :
  map Hit.meeting_id
    (search_context Sample.up None Sample.db2 "hello" 5 (Some []))
  = ["m2"; "m1"].
Proof.
  destruct (empty_allow_list_is_unrestricted Sample.up None Sample.db2
              "hello" 5) as [_ Hall].
  rewrite (Hall Sample.model (Sample.embed "hello")).
  - vm_compute. reflexivity.
  - reflexivity.
  - reflexivity.
  - reflexivity.
  - lia.
Defined.

Lemma rows_of_in (m : string) (d : database) (r : embedding_row) :
  In r (meeting_embeddings d) -> meeting_id r = m -> In r (rows_of m d).
Proof.
  intros Hin Hm. unfold rows_of. apply filter_In. split; [exact Hin|].
  apply String.eqb_eq. exact Hm.
Qed.

Lemma refreshed_contiguous (d : database) (m : string)
    (pairs : list (string * vector)) :
  contiguous d -> contiguous (refreshed d m (records_from m 0 pairs)).
Proof.
  intros Hd m0. destruct (string_dec m0 m) as [->|Hne].
  - rewrite rows_of_refreshed by apply records_from_meeting.
    rewrite records_from_length.
    apply (records_from_indices m pairs 0).
  - rewrite rows_of_refreshed_other;
      [apply Hd | exact Hne | apply records_from_meeting].
Qed.

(** C8: the chunk indices of a meeting are contiguous from 0.  Every
    refresh, failed or not, keeps this true of the whole table; and after
    a refresh that reports [n > 0] the meeting's indices are exactly
    [0 .. n-1], without gap or repetition, given to the chunks in input
    order, so every match a later search returns for that meeting carries
    an index in that range. *)
Theorem chunk_indices_contiguous :
  forall ext fault d m transcripts d' n,
    store_meeting_embeddings ext fault d m transcripts = (d', n) ->
    (contiguous d -> contiguous d')
    /\ (length_preserving ext ->
        0 < n ->
        map chunk_index (rows_of m d')
        = map Z.of_nat (seq 0 (Z.to_nat n))
        /\ map content (rows_of m d') = derived_chunks transcripts
        /\ NoDup (map chunk_index (rows_of m d'))
        /\ forall ext' fault' query k allowed hit,
             In hit (search_context ext' fault' d' query k allowed) ->
             Hit.meeting_id hit = m ->
             0 <= Hit.chunk_index hit < n).
Proof.
  intros ext fault d m transcripts d' n Hrun.
  destruct (store_outcome ext fault d m transcripts)
    as [Hno|(model & embeddings & Hmodel & Henc & Hsome & n' & Hn & Hyes)];
    rewrite Hrun in *.
  - inversion Hno; subst d' n. split; [auto | lia].
  - inversion Hyes; subst d' n'. split.
    + apply refreshed_contiguous.
    + intros Hlen Hpos.
      destruct Hn as [Hn|Hn]; [subst n | lia].
      pose proof (Hlen _ _ _ Hmodel Henc) as Hsame.
      assert (Hidx :
        map chunk_index
          (rows_of m
             (refreshed d m
                (records_from m 0
                   (combine (derived_chunks transcripts) embeddings))))
        = map Z.of_nat
            (seq 0 (Z.to_nat
                      (Z.of_nat
                         (List.length (derived_chunks transcripts)))))).
      { rewrite rows_of_refreshed by apply records_from_meeting.
        rewrite (records_from_indices m _ 0), length_combine, Hsame.
        rewrite Nat.min_id, Nat2Z.id. reflexivity. }
      split; [exact Hidx|]. split; [|split].
      * rewrite rows_of_refreshed by apply records_from_meeting.
        rewrite records_from_content.
        apply combine_fst_same_length. exact Hsame.
      * rewrite Hidx. apply Finite.Injective_map_NoDup.
        -- intros a b. apply Nat2Z.inj.
        -- apply seq_NoDup.
      * intros ext' fault' query k allowed hit Hin Hm.
        destruct (search_context_cases ext' fault'
                    (refreshed d m
                       (records_from m 0
                          (combine (derived_chunks transcripts)
                                   embeddings)))
                    query k allowed)
          as [Hnone|(model' & qv & _ & _ & _ & Hrank)].
        -- rewrite Hnone in Hin. contradiction.
        -- rewrite Hrank in Hin. apply ranking_from_candidates in Hin.
           destruct Hin as (p & Hp & Hhit). subst hit. cbn in Hm.
           apply candidates_joined, joined_from_table in Hp.
           destruct Hp as (Hrow & _ & _).
           apply (rows_of_in m) in Hrow; [|exact Hm].
           apply (in_map chunk_index) in Hrow.
           rewrite Hidx in Hrow. apply in_map_iff in Hrow.
           destruct Hrow as (i & Hi & Hrange). apply in_seq in Hrange.
           cbn [Hit.chunk_index hit_of format_row select_row
                  Selected.chunk_index].
           lia.
Qed.

Lemma empty_db_contiguous : contiguous Sample.empty_db.
Proof. intros m. reflexivity. Qed.

(** Two chunks, indexed 0 and 1. *)
Lemma chunk_indices_contiguous_witness :
  contiguous
    (fst (store_meeting_embeddings Sample.up None Sample.empty_db "m1"
            (Sample.says Sample.long_text)))
  /\ map chunk_index
       (rows_of "m1"
          (fst (store_meeting_embeddings Sample.up None Sample.empty_db "m1"
                  (Sample.says Sample.long_text))))
     = [0; 1].
Proof.
  destruct (chunk_indices_contiguous Sample.up None Sample.empty_db "m1"
              (Sample.says Sample.long_text)
              (fst (store_meeting_embeddings Sample.up None Sample.empty_db
                      "m1" (Sample.says Sample.long_text)))
              2)
    as [Hkeep Hnew].
  - vm_compute. reflexivity.
  - split.
    + apply Hkeep. exact empty_db_contiguous.
    + destruct (Hnew sample_length_preserving) as [Hidx _]; [lia|].
      rewrite Hidx. reflexivity.
Defined.

(** ** More on the chunker *)

Lemma lstrip_head (s : string) :
  match Py.lstrip s with
  | EmptyString => True
  | String c _ => Py.isspace c = false
  end.
Proof.
  induction s as [|c s IH]; cbn; [exact I|].
  destruct (Py.isspace c) eqn:Hc; [exact IH | exact Hc].
Qed.

Lemma lstrip_fixed (c : ascii) (s : string) :
  Py.isspace c = false -> Py.lstrip (String c s) = String c s.
Proof. intros Hc. cbn. rewrite Hc. reflexivity. Qed.

Lemma rstrip_cons (c : ascii) (s : string) :
  Py.rstrip (String c s)
  = match Py.rstrip s with
    | EmptyString => if Py.isspace c then EmptyString else String c EmptyString
    | r => String c r
    end.
Proof. reflexivity. Qed.

Lemma rstrip_idempotent (s : string) :
  Py.rstrip (Py.rstrip s) = Py.rstrip s.
Proof.
  induction s as [|c s IH]; [reflexivity|].
  rewrite rstrip_cons.
  destruct (Py.rstrip s) as [|c' r] eqn:Hr.
  - destruct (Py.isspace c) eqn:Hc; [reflexivity|].
    rewrite rstrip_cons. cbn. rewrite Hc. reflexivity.
  - rewrite rstrip_cons, IH. reflexivity.
Qed.

Lemma rstrip_head (c : ascii) (s : string) :
  Py.isspace c = false ->
  exists r, Py.rstrip (String c s) = String c r.
Proof.
  intros Hc. cbn. destruct (Py.rstrip s); [rewrite Hc|]; eauto.
Qed.

Lemma strip_idempotent (s : string) : Py.strip (Py.strip s) = Py.strip s.
Proof.
  unfold Py.strip. pose proof (lstrip_head s) as Hhead.
  destruct (Py.lstrip s) as [|c s'] eqn:Hl; [reflexivity|].
  destruct (rstrip_head c s' Hhead) as [r Hr].
  rewrite Hr, lstrip_fixed by exact Hhead.
  rewrite <- Hr. apply rstrip_idempotent.
Qed.

Lemma chunks_of_clean (text : string) (ws : list (Z * Z)) :
  Forall clean_chunk (chunks_of text ws).
Proof.
  unfold chunks_of. apply Forall_forall. intros c Hin.
  apply filter_In in Hin. destruct Hin as [Hin Htruthy].
  apply in_map_iff in Hin. destruct Hin as (w & Hw & _). subst c.
  split; [exact Htruthy | apply strip_idempotent].
Qed.

Lemma chunk_loop_windows (text : string) (chunk_size overlap : Z)
    (fuel : nat) :
  forall start chunks,
    chunk_loop fuel text chunk_size overlap start chunks
    = option_map (fun ws => chunks ++ chunks_of text ws)
        (windows fuel text chunk_size overlap start).
Proof.
  induction fuel as [|fuel IH]; intros start chunks.
  - cbn [chunk_loop windows].
    destruct (start <? Py.len text); cbn; [reflexivity|].
    rewrite app_nil_r. reflexivity.
  - rewrite chunk_loop_unfold. cbn [windows].
    destruct (start <? Py.len text); cbn [option_map];
      [|rewrite app_nil_r; reflexivity].
    rewrite IH. unfold chunk_step. cbn [fst snd].
    destruct (windows fuel text chunk_size overlap
                (next_start text overlap (cut_end text chunk_size start)))
      as [ws|]; cbn [option_map]; [|reflexivity].
    f_equal. unfold chunks_of. cbn [map filter fst snd].
    destruct (Py.truthy
                (Py.strip
                   (Py.slice text start (cut_end text chunk_size start))));
      [rewrite <- app_assoc|]; reflexivity.
Qed.

Lemma substring_length_le (s : string) :
  forall n m, (String.length (substring n m s) <= m)%nat.
Proof.
  induction s as [|c s IH]; intros [|n] [|m]; cbn; try lia.
  - specialize (IH 0%nat m). lia.
  - apply IH.
  - apply IH.
Qed.

Lemma lstrip_length_le (s : string) :
  (String.length (Py.lstrip s) <= String.length s)%nat.
Proof.
  induction s as [|c s IH]; cbn; [lia|].
  destruct (Py.isspace c); cbn; lia.
Qed.

Lemma rstrip_length_le (s : string) :
  (String.length (Py.rstrip s) <= String.length s)%nat.
Proof.
  induction s as [|c s IH]; [cbn; lia|].
  rewrite rstrip_cons.
  destruct (Py.rstrip s); [destruct (Py.isspace c)|]; cbn in *; lia.
Qed.

Lemma strip_length_le (s : string) : Py.len (Py.strip s) <= Py.len s.
Proof.
  unfold Py.len, Py.strip.
  pose proof (rstrip_length_le (Py.lstrip s)).
  pose proof (lstrip_length_le s). lia.
Qed.

(** A slice between two indices that are not negative is no longer than
    their difference. *)
Lemma slice_length_le (s : string) (a b : Z) :
  0 <= a <= b -> Py.len (Py.slice s a b) <= b - a.
Proof.
  intros Hab. unfold Py.slice, Py.adjust.
  destruct (Z.ltb_spec a 0); [lia|].
  destruct (Z.ltb_spec b 0); [lia|].
  destruct (Z.ltb_spec (Z.min a (Py.len s)) (Z.min b (Py.len s)));
    [|cbn; lia].
  unfold Py.len at 1.
  pose proof (substring_length_le s (Z.to_nat (Z.min a (Py.len s)))
                (Z.to_nat (Z.min b (Py.len s) - Z.min a (Py.len s)))).
  lia.
Qed.

Lemma rfind_from_range (s sub : string) (lo : Z) (k : nat) :
  Py.rfind_from s sub lo k = -1
  \/ lo <= Py.rfind_from s sub lo k < lo + Z.of_nat k.
Proof.
  induction k as [|k IH]; cbn [Py.rfind_from]; [auto|].
  destruct (Py.occurs_at s sub (lo + Z.of_nat k)); [right; lia|].
  destruct IH; [auto | right; lia].
Qed.

(** A match found in a window that ends at [b >= 0] ends inside it. *)
Lemma rfind_upper (s sub : string) (a b : Z) :
  0 <= b ->
  Py.rfind s sub a b = -1 \/ Py.rfind s sub a b + Py.len sub <= b.
Proof.
  intros Hb. unfold Py.rfind.
  set (a' := Py.adjust (Py.len s) a). set (b' := Py.adjust (Py.len s) b).
  assert (Hb' : b' <= b).
  { unfold b', Py.adjust. destruct (Z.ltb_spec b 0); lia. }
  destruct (Z.ltb_spec (b' - a') (Py.len sub)); [auto|].
  destruct (rfind_from_range s sub a'
              (Z.to_nat (b' - a' - Py.len sub + 1))); [auto|].
  right. lia.
Qed.

Lemma find_cut_upper (text : string) (seps : list string)
    (start end_ chunk_size : Z) :
  Forall (fun sep => 1 <= Py.len sep) seps ->
  0 <= end_ ->
  find_cut text seps start end_ chunk_size <= end_.
Proof.
  intros Hseps Hend. induction Hseps as [|sep rest Hsep _ IH];
    cbn [find_cut]; [lia|].
  destruct (Z.ltb_spec (start + chunk_size / 2)
              (Py.rfind text sep start end_)); [|exact IH].
  destruct (rfind_upper text sep start end_ Hend); lia.
Qed.

Lemma separators_not_empty : Forall (fun sep => 1 <= Py.len sep) separators.
Proof. repeat constructor; vm_compute; discriminate. Qed.

Lemma cut_end_upper (text : string) (chunk_size start : Z) :
  0 <= start + chunk_size ->
  cut_end text chunk_size start <= start + chunk_size.
Proof.
  intros Hend. unfold cut_end.
  destruct (start + chunk_size <? Py.len text); [|lia].
  apply find_cut_upper; [apply separators_not_empty | exact Hend].
Qed.

Lemma windows_chain (text : string) (chunk_size overlap : Z) (fuel : nat) :
  0 <= overlap < chunk_size ->
  overlap <= chunk_size / 2 + 1 ->
  forall start ws,
    0 <= start ->
    windows fuel text chunk_size overlap start = Some ws ->
    window_chain text chunk_size overlap start ws.
Proof.
  intros Hov Hmid.
  induction fuel as [|fuel IH]; intros start ws Hstart Hrun;
    cbn [windows] in Hrun;
    destruct (Z.ltb_spec start (Py.len text)) as [Hlt|Hge];
    try discriminate.
  - inversion Hrun; subst. constructor. exact Hge.
  - destruct (windows fuel text chunk_size overlap
                (next_start text overlap (cut_end text chunk_size start)))
      as [rest|] eqn:Hrest; [|discriminate].
    cbn [option_map] in Hrun. inversion Hrun; subst ws.
    pose proof (cut_end_lower text chunk_size start) as Hlow.
    pose proof (cut_end_upper text chunk_size start ltac:(lia)) as Hup.
    pose proof (cursor_advances text chunk_size overlap
                  ltac:(lia) Hmid start Hlt) as Hadv.
    constructor; [lia | lia |].
    fold (next_start text overlap (cut_end text chunk_size start)).
    apply IH; [lia | exact Hrest].
  - inversion Hrun; subst. constructor. exact Hge.
Qed.

(** The windows of a chain leave no index of the text out. *)
Lemma window_chain_covers (text : string) (chunk_size overlap : Z)
    (start : Z) (ws : list (Z * Z)) :
  0 <= overlap ->
  window_chain text chunk_size overlap start ws ->
  forall i, start <= i < Py.len text ->
            Exists (fun w => fst w <= i < snd w) ws.
Proof.
  intros Hov Hchain. induction Hchain as [start Hge|start end_ rest Hs He _ IH];
    intros i Hi; [lia|].
  destruct (Z.lt_ge_cases i end_) as [Hin|Hout].
  - left. cbn. lia.
  - right. apply IH.
    destruct (Z.ltb_spec end_ (Py.len text)); lia.
Qed.

Lemma chunk_transcript_loop_path (fuel : nat) (text : string)
    (chunk_size overlap : Z) :
  Py.truthy text = true ->
  chunk_size <= Py.len text ->
  chunk_transcript fuel text chunk_size overlap
  = option_map (chunks_of text) (windows fuel text chunk_size overlap 0).
Proof.
  intros Htext Hlen. unfold chunk_transcript. rewrite Htext.
  destruct (Z.ltb_spec (Py.len text) chunk_size); [lia|].
  cbn [negb orb]. rewrite chunk_loop_windows.
  destruct (windows fuel text chunk_size overlap 0); reflexivity.
Qed.

Lemma truthy_len (s : string) : Py.truthy s = true <-> 1 <= Py.len s.
Proof.
  unfold Py.len. destruct s; cbn; split; intros; try lia; try discriminate.
Qed.

(** X1: no chunk is ever empty, and on the loop path (text at least
    [chunk_size] long) every chunk is stripped: it has no blank at its
    start or end. *)
Theorem chunks_never_blank :
  forall fuel text chunk_size overlap chunks,
    chunk_transcript fuel text chunk_size overlap = Some chunks ->
    Forall (fun chunk => Py.truthy chunk = true) chunks
    /\ (Py.truthy text = true ->
        chunk_size <= Py.len text ->
        Forall clean_chunk chunks).
Proof.
  intros fuel text chunk_size overlap chunks Hrun.
  assert (Hloop : Py.truthy text = true -> chunk_size <= Py.len text ->
                  Forall clean_chunk chunks).
  { intros Htext Hlen.
    rewrite chunk_transcript_loop_path in Hrun by assumption.
    destruct (windows fuel text chunk_size overlap 0); [|discriminate].
    inversion Hrun; subst. apply chunks_of_clean. }
  split; [|exact Hloop].
  destruct (Py.truthy text) eqn:Htext.
  - destruct (Z.ltb_spec (Py.len text) chunk_size) as [Hshort|Hlong].
    + unfold chunk_transcript in Hrun. rewrite Htext in Hrun.
      apply Z.ltb_lt in Hshort. rewrite Hshort in Hrun.
      inversion Hrun; subst. repeat constructor. exact Htext.
    + eapply Forall_impl; [|apply Hloop; [reflexivity | exact Hlong]].
      intros c Hc. apply Hc.
  - unfold chunk_transcript in Hrun. rewrite Htext in Hrun.
    inversion Hrun; subst. constructor.
Qed.

Lemma chunks_never_blank_witness :
  Forall clean_chunk ["abcdefg."; "fg. hijklm"; "klmnop"].
Proof.
  destruct (chunks_never_blank 18 "abcdefg. hijklmnop" 10 3
              ["abcdefg."; "fg. hijklm"; "klmnop"]) as [_ Hclean].
  - vm_compute. reflexivity.
  - apply Hclean; [reflexivity | vm_compute; discriminate].
Defined.

(** X2: with [0 <= overlap < chunk_size] and
    [overlap <= chunk_size // 2 + 1], a text of at least [chunk_size]
    characters is cut into windows that start at 0, are each at most
    [chunk_size] wide, each start [overlap] before the end of the one
    before, and together contain every index of the text; the chunks are
    the stripped slices of these windows, empty ones left out. *)
Theorem chunks_cover_text :
  forall fuel text chunk_size overlap chunks,
    0 <= overlap < chunk_size ->
    overlap <= chunk_size / 2 + 1 ->
    chunk_size <= Py.len text ->
    chunk_transcript fuel text chunk_size overlap = Some chunks ->
    exists ws,
      chunks = chunks_of text ws
      /\ window_chain text chunk_size overlap 0 ws
      /\ forall i, 0 <= i < Py.len text ->
                   Exists (fun w => fst w <= i < snd w) ws.
Proof.
  intros fuel text chunk_size overlap chunks Hov Hmid Hlen Hrun.
  rewrite chunk_transcript_loop_path in Hrun;
    [|apply truthy_len; lia | exact Hlen].
  destruct (windows fuel text chunk_size overlap 0) as [ws|] eqn:Hws;
    [|discriminate].
  inversion Hrun; subst chunks. exists ws.
  pose proof (windows_chain text chunk_size overlap fuel Hov Hmid 0 ws
                ltac:(lia) Hws) as Hchain.
  repeat split; [exact Hchain|].
  apply (window_chain_covers text chunk_size overlap 0 ws); [lia|exact Hchain].
Qed.

Lemma chunks_cover_text_witness :
  exists ws,
    ["abcdefg."; "fg. hijklm"; "klmnop"]
    = chunks_of "abcdefg. hijklmnop" ws
    /\ Exists (fun w => fst w <= 8 < snd w) ws.
Proof.
  destruct (chunks_cover_text 18 "abcdefg. hijklmnop" 10 3
              ["abcdefg."; "fg. hijklm"; "klmnop"])
    as (ws & Hchunks & _ & Hcover).
  - lia.
  - vm_compute. discriminate.
  - vm_compute. discriminate.
  - vm_compute. reflexivity.
  - exists ws. split; [exact Hchunks|]. apply Hcover. vm_compute.
    split; [discriminate | reflexivity].
Defined.

Lemma window_chain_widths (text : string) (chunk_size overlap : Z)
    (start : Z) (ws : list (Z * Z)) :
  window_chain text chunk_size overlap start ws ->
  Forall (fun w => 0 <= fst w <= snd w /\ snd w - fst w <= chunk_size) ws.
Proof.
  induction 1; constructor; cbn; try assumption. lia.
Qed.

(** X3: with [0 <= overlap < chunk_size] and
    [overlap <= chunk_size // 2 + 1], no chunk is longer than
    [chunk_size]. *)
Theorem chunks_within_size :
  forall fuel text chunk_size overlap chunks,
    0 <= overlap < chunk_size ->
    overlap <= chunk_size / 2 + 1 ->
    chunk_transcript fuel text chunk_size overlap = Some chunks ->
    Forall (fun chunk => Py.len chunk <= chunk_size) chunks.
Proof.
  intros fuel text chunk_size overlap chunks Hov Hmid Hrun.
  destruct (Z.ltb_spec (Py.len text) chunk_size) as [Hshort|Hlong].
  - unfold chunk_transcript in Hrun.
    apply Z.ltb_lt in Hshort. rewrite Hshort, orb_true_r in Hrun.
    apply Z.ltb_lt in Hshort.
    inversion Hrun; subst.
    destruct (Py.truthy text); repeat constructor. lia.
  - destruct (chunks_cover_text fuel text chunk_size overlap chunks
                Hov Hmid Hlong Hrun) as (ws & Hchunks & Hchain & _).
    subst chunks. apply window_chain_widths in Hchain.
    unfold chunks_of. apply Forall_forall. intros c Hin.
    apply filter_In in Hin. destruct Hin as [Hin _].
    apply in_map_iff in Hin. destruct Hin as (w & Hc & Hw). subst c.
    rewrite Forall_forall in Hchain. specialize (Hchain w Hw).
    pose proof (strip_length_le (Py.slice text (fst w) (snd w))).
    pose proof (slice_length_le text (fst w) (snd w) ltac:(lia)).
    lia.
Qed.

Lemma chunks_within_size_witness :
  Forall (fun chunk => Py.len chunk <= 10)
    ["abcdefg."; "fg. hijklm"; "klmnop"].
Proof.
  apply (chunks_within_size 18 "abcdefg. hijklmnop" 10 3).
  - lia.
  - vm_compute. discriminate.
  - vm_compute. reflexivity.
Defined.

(** ** More on refresh and search *)




Lemma execute_insert_needs_meeting (fault : option nat) (r : embedding_row)
    (c c' : conn) (u : unit) :
  execute_insert fault r c = (inr u, c') ->
  has_meeting (meeting_id r) (view c) = true.
Proof.
  unfold execute_insert. cbv [bind read write raise]. intros Hrun.
  destruct (round_trip_cases fault c) as [H|H]; rewrite H in Hrun;
    [discriminate|].
  cbn in Hrun.
  destruct (has_meeting (meeting_id r) (view c)); [reflexivity|discriminate].
Qed.

Lemma refresh_body_needs_meeting (fault : option nat) (m : string)
    (r : embedding_row) (rest : list embedding_row) (c c' : conn)
    (u : unit) :
  refresh_body fault m (r :: rest) c = (inr u, c') ->
  has_meeting (meeting_id r) (view c) = true.
Proof.
  unfold refresh_body, bind. intros Hrun.
  destruct (execute_delete fault m c) as [[e|u1] c1] eqn:Hdel;
    [discriminate|].
  apply execute_delete_ok in Hdel. cbn [executemany] in Hrun.
  unfold bind in Hrun.
  destruct (execute_insert fault r c1) as [[e|u2] c2] eqn:Hins;
    [discriminate|].
  apply execute_insert_needs_meeting in Hins.
  rewrite Hdel in Hins. exact Hins.
Qed.

(** X5: a refresh for a meeting that is not in [meetings] stores nothing:
    the first insert violates the foreign key, the transaction is rolled
    back, the tables are unchanged and 0 is returned. *)
Theorem refresh_unknown_meeting :
  forall ext fault d m transcripts,
    length_preserving ext ->
    has_meeting m d = false ->
    store_meeting_embeddings ext fault d m transcripts = (d, 0).
Proof.
  intros ext fault d m transcripts Hlen Hunknown.
  unfold store_meeting_embeddings.
  destruct (get_embedding_model ext) as [model|] eqn:Hmodel; [|reflexivity].
  fold (full_text transcripts).
  destruct (negb (Py.truthy (Py.strip (full_text transcripts))));
    [reflexivity|].
  fold (derived_chunks transcripts).
  destruct (derived_chunks transcripts) as [|chunk chunks] eqn:Hchunks;
    [reflexivity|].
  destruct (encode_batch model (chunk :: chunks)) as [embeddings|] eqn:Henc;
    [|reflexivity].
  pose proof (Hlen _ _ _ Hmodel Henc) as Hsame.
  destruct embeddings as [|v embeddings]; [discriminate|].
  unfold get_db_connection.
  match goal with
  | |- context [round_trip fault ?c0] =>
      destruct (round_trip_cases fault c0) as [H|H]; rewrite H
  end; [reflexivity|].
  match goal with
  | |- context [transaction fault ?body ?c0] =>
      destruct (transaction fault body c0) as [[e|u] c'] eqn:Htx;
        apply transaction_atomic in Htx;
        try apply keeps_committed_body
  end.
  - rewrite close_durable, Htx. reflexivity.
  - exfalso. destruct Htx as (c1 & c2 & Hv & Hbody & _).
    cbn [combine records_from] in Hbody.
    apply refresh_body_needs_meeting in Hbody.
    rewrite Hv in Hbody. cbn in Hbody. congruence.
Qed.

Lemma refresh_unknown_meeting_witness :
  store_meeting_embeddings Sample.up None Sample.db1 "m9"
    (Sample.says "hello") = (Sample.db1, 0).
Proof.
  apply (refresh_unknown_meeting Sample.up None Sample.db1 "m9"
           (Sample.says "hello") sample_length_preserving).
  reflexivity.
Defined.

(** X6: every match a search returns is a stored chunk joined with its
    meeting: text, meeting id and chunk index are those of a row of
    [meeting_embeddings], title and date those of the row of [meetings]
    with that id, a missing date shown as the empty string. *)
Theorem search_hits_are_stored_chunks :
  forall ext fault d query n allowed hit,
    In hit (search_context ext fault d query n allowed) ->
    exists e mt,
      In e (meeting_embeddings d)
      /\ In mt (meetings d)
      /\ id mt = meeting_id e
      /\ Hit.text hit = content e
      /\ Hit.meeting_id hit = meeting_id e
      /\ Hit.chunk_index hit = chunk_index e
      /\ Hit.meeting_title hit = title mt
      /\ Hit.meeting_date hit
         = match created_at mt with Some iso => iso | None => "" end.
Proof.
  intros ext fault d query n allowed hit Hin.
  destruct (search_context_cases ext fault d query n allowed)
    as [Hnone|(model & qv & _ & _ & _ & Hrank)].
  - rewrite Hnone in Hin. contradiction.
  - rewrite Hrank in Hin. apply ranking_from_candidates in Hin.
    destruct Hin as ([e mt] & Hp & Hhit). subst hit.
    apply candidates_joined, joined_from_table in Hp.
    destruct Hp as (He & Hmt & Hid). cbn [fst snd] in *.
    exists e, mt. repeat split; auto.
Qed.

Lemma search_hits_are_stored_chunks_witness :
  exists e mt,
    In e (meeting_embeddings Sample.db2)
    /\ In mt (meetings Sample.db2)
    /\ id mt = meeting_id e
    /\ Hit.text Sample.m1_hit = content e
    /\ Hit.meeting_id Sample.m1_hit = meeting_id e
    /\ Hit.chunk_index Sample.m1_hit = chunk_index e
    /\ Hit.meeting_title Sample.m1_hit = title mt
    /\ Hit.meeting_date Sample.m1_hit
       = match created_at mt with Some iso => iso | None => "" end.
Proof.
  apply (search_hits_are_stored_chunks Sample.up None Sample.db2 "hello" 5
           (Some ["m1"]) Sample.m1_hit).
  vm_compute. left. reflexivity.
Defined.

(** X7: a refresh of one meeting never touches anything else.  However
    the call ends, the table [meetings] and the chunks of every other
    meeting are the same after it as before. *)
Theorem refresh_leaves_other_meetings_alone :
  forall ext fault d m transcripts,
    meetings (fst (store_meeting_embeddings ext fault d m transcripts))
    = meetings d
    /\ forall m',
         m' <> m ->
         rows_of m' (fst (store_meeting_embeddings ext fault d m transcripts))
         = rows_of m' d.
Proof.
  intros ext fault d m transcripts.
  destruct (store_outcome ext fault d m transcripts)
    as [Hno|(model & embeddings & _ & _ & _ & k & _ & Hyes)].
  - rewrite Hno. auto.
  - rewrite Hyes. cbn [fst]. split; [reflexivity|].
    intros m' Hne. apply rows_of_refreshed_other;
      [exact Hne | apply records_from_meeting].
Qed.

Lemma refresh_leaves_other_meetings_alone_witness :
  rows_of "m1"
    (fst (store_meeting_embeddings Sample.up None Sample.db1 "m2"
            (Sample.says "hello!")))
  = rows_of "m1" Sample.db1.
Proof.
  destruct (refresh_leaves_other_meetings_alone Sample.up None Sample.db1
              "m2" (Sample.says "hello!")) as [_ Hrows].
  apply Hrows. discriminate.
Defined.

(** The search as one expression: empty unless the provider works, no
    round trip of the connection (connect, fetch, close) raises and the
    limit is not negative. *)
Lemma search_context_eq (ext : externals) (fault : option nat)
    (d : database) (query : string) (n : Z)
    (allowed : option (list string)) :
  search_context ext fault d query n allowed
  = match get_embedding_model ext with
    | None => []
    | Some model =>
        match encode model query with
        | None => []
        | Some qv =>
            if match fault with Some k => Nat.leb k 2 | None => false end
               || (n <? 0)
            then []
            else ranking ext d qv n allowed
        end
    end.
Proof.
  unfold search_context.
  destruct (get_embedding_model ext) as [model|]; [|reflexivity].
  destruct (encode model query) as [qv|]; [|reflexivity].
  pose proof (run_select_built ext d qv n allowed) as Hsel.
  destruct (build_query qv n allowed) as [sql args]. cbn [fst snd] in Hsel.
  unfold ranking. rewrite <- (map_map (select_row ext qv) format_row).
  destruct (n <? 0) eqn:Hneg;
    destruct fault as [[|[|[|k]]]|]; cbn; rewrite ?Hsel; reflexivity.
Qed.

(** X8: whatever goes wrong with the database during a search - the
    connection, the query or the closing of the connection raises - the
    caller gets the empty list; the same holds for a limit that is zero or
    negative. *)
Theorem search_failure_is_empty :
  forall ext fault d query n allowed,
    (exists k, fault = Some k /\ (k <= 2)%nat) \/ n <= 0 ->
    search_context ext fault d query n allowed = [].
Proof.
  intros ext fault d query n allowed Hbad.
  rewrite search_context_eq.
  destruct (get_embedding_model ext) as [model|]; [|reflexivity].
  destruct (encode model query) as [qv|]; [|reflexivity].
  destruct Hbad as [(k & Hk & Hle)|Hn].
  - subst fault. apply Nat.leb_le in Hle. rewrite Hle. reflexivity.
  - destruct (Z.ltb_spec n 0); [rewrite orb_true_r; reflexivity|].
    assert (n = 0) by lia. subst n.
    destruct (match fault with Some k => Nat.leb k 2 | None => false end);
      reflexivity.
Qed.

Lemma search_failure_is_empty_witness :
  search_context Sample.up (Some 1%nat) Sample.db2 "hello" 5 None = []
  /\ search_context Sample.up None Sample.db2 "hello" (-3) None = [].
Proof.
  split.
  - apply (search_failure_is_empty Sample.up (Some 1%nat) Sample.db2
             "hello" 5 None).
    left. exists 1%nat. split; [reflexivity | lia].
  - apply (search_failure_is_empty Sample.up None Sample.db2 "hello" (-3)
             None).
    right. lia.
Defined.

Lemma model_calls_loaded (loads : list (option embedding_model))
    (model : embedding_model) :
  forall i r,
    nth_error (model_calls loads (Some model)) i = Some r ->
    r = Some model.
Proof.
  induction loads as [|load rest IH]; intros [|i] r Hnth; cbn in Hnth;
    try discriminate.
  - inversion Hnth; reflexivity.
  - eapply IH. exact Hnth.
Qed.

(** X9: the model is loaded at most once.  A call returns the cached
    model if there is one, and otherwise the outcome of the first load
    that has succeeded so far: a failed load is not remembered and the
    next call tries again, a successful one is kept for all later
    calls. *)
Theorem model_loaded_once :
  forall loads cache i r,
    nth_error (model_calls loads cache) i = Some r ->
    r = first_some (cache :: firstn (S i) loads).
Proof.
  induction loads as [|load rest IH]; intros cache i r Hnth.
  - destruct i; discriminate.
  - destruct cache as [model|].
    + cbn [first_some]. eapply model_calls_loaded. exact Hnth.
    + destruct i as [|i]; cbn in Hnth.
      * inversion Hnth; subst r. destruct load; reflexivity.
      * destruct load as [model|]; cbn in Hnth.
        -- apply IH in Hnth. exact Hnth.
        -- apply IH in Hnth. exact Hnth.
Qed.

Lemma model_loaded_once_witness :
  nth_error (model_calls [None; Some Sample.model; None] None) 2
  = Some (first_some (None :: firstn 3 [None; Some Sample.model; None])).
Proof.
  rewrite <- (model_loaded_once [None; Some Sample.model; None] None 2%nat
                (Some Sample.model)); reflexivity.
Defined.

(** ** Authentication *)

Lemma substring_app_right (p s : string) :
  substring (String.length p) (String.length s) (p ++ s) = s.
Proof.
  induction p as [|c p IH]; cbn; [|exact IH].
  induction s as [|c s IH]; cbn; [reflexivity|].
  f_equal. exact IH.
Qed.

Lemma substring_split (s : string) :
  forall n, (n <= String.length s)%nat ->
            s = (substring 0 n s
                 ++ substring n (String.length s - n) s)%string.
Proof.
  induction s as [|c s IH]; intros [|n] Hn; cbn in *; try lia.
  - reflexivity.
  - f_equal. clear. induction s as [|c s IH]; cbn; [reflexivity|].
    f_equal. exact IH.
  - f_equal. apply IH. lia.
Qed.

Lemma substring_prefix_length (s : string) :
  forall n, (n <= String.length s)%nat ->
            String.length (substring 0 n s) = n.
Proof.
  induction s as [|c s IH]; intros [|n] Hn; cbn in *; try lia.
  f_equal. apply IH. lia.
Qed.

Lemma append_length (p s : string) :
  String.length (p ++ s) = (String.length p + String.length s)%nat.
Proof. induction p as [|c p IH]; cbn; [reflexivity | rewrite IH; reflexivity]. Qed.

(** [endswith] holds exactly of the strings that are a prefix followed by
    the suffix. *)
Lemma endswith_iff (s suffix : string) :
  Auth.endswith s suffix = true <-> exists p, s = (p ++ suffix)%string.
Proof.
  unfold Auth.endswith. split.
  - intros H. apply andb_true_iff in H. destruct H as [Hlen Heq].
    apply Nat.leb_le in Hlen. apply String.eqb_eq in Heq.
    exists (substring 0 (String.length s - String.length suffix) s).
    pose proof (substring_split s (String.length s - String.length suffix)
                  ltac:(lia)) as Hsplit.
    replace (String.length s - (String.length s - String.length suffix))%nat
      with (String.length suffix) in Hsplit by lia.
    rewrite Heq in Hsplit. exact Hsplit.
  - intros [p ->]. rewrite append_length.
    apply andb_true_iff. split; [apply Nat.leb_le; lia|].
    replace (String.length p + String.length suffix - String.length suffix)%nat
      with (String.length p) by lia.
    rewrite substring_app_right. apply String.eqb_refl.
Qed.

(** X10: [get_current_user] returns a user only for a token that
    [jwt.decode] accepted against Google's keys with the configured client
    id as audience and whose [email] claim is a string ending in
    "@appointy.com"; the user's email is that claim. *)
Theorem authenticated_user_is_in_domain :
  forall e credentials user,
    Auth.get_current_user e credentials = inr user ->
    exists jwks payload local,
      Auth.get_google_public_keys e = inr jwks
      /\ Auth.jwt_decode e credentials jwks (Auth.GOOGLE_CLIENT_ID e)
         = inr payload
      /\ Auth.get payload "email"
         = Some (Auth.Str (local ++ "@appointy.com"))
      /\ Auth.email user = (local ++ "@appointy.com")%string.
Proof.
  intros e credentials user Hrun. unfold Auth.get_current_user in Hrun.
  destruct (Auth.verify_google_token e credentials) as [x|payload] eqn:Hv;
    [discriminate|].
  unfold Auth.verify_google_token in Hv.
  destruct (Auth.get_google_public_keys e) as [x|jwks] eqn:Hkeys.
  { destruct x; discriminate. }
  destruct (Auth.jwt_decode e credentials jwks (Auth.GOOGLE_CLIENT_ID e))
    as [x|payload'] eqn:Hdec.
  { destruct x; discriminate. }
  inversion Hv; subst payload'.
  destruct (Auth.get payload "email") as [[| | |address|]|] eqn:Hemail;
    try (destruct (negb _); discriminate); try discriminate.
  destruct (negb (Auth.truthy (Auth.Str address))); [discriminate|].
  destruct (Auth.endswith address "@appointy.com") eqn:Hends;
    [|discriminate].
  apply endswith_iff in Hends. destruct Hends as [local ->].
  cbn [negb] in Hrun.
  destruct (Auth.optional_field e (Auth.get payload "name"));
    [|discriminate].
  destruct (Auth.optional_field e (Auth.get payload "picture"));
    [|discriminate].
  inversion Hrun; subst user.
  exists jwks, payload, local. auto.
Qed.

Lemma authenticated_user_is_in_domain_witness :
  exists local,
    Auth.email
      {| Auth.email := "ada@appointy.com"; Auth.name := Some "Ada";
         Auth.picture := None |}
    = (local ++ "@appointy.com")%string.
Proof.
  destruct (authenticated_user_is_in_domain
              (Auth.sample_env [("email", Auth.Str "ada@appointy.com");
                                ("name", Auth.Str "Ada")])
              "good"
              {| Auth.email := "ada@appointy.com"; Auth.name := Some "Ada";
                 Auth.picture := None |})
    as (_ & _ & local & _ & _ & _ & Hmail).
  - reflexivity.
  - exists local. exact Hmail.
Defined.

(** X11: whatever makes the verification of the token fail - a bad or
    expired token, a wrong audience, a network error while fetching the
    keys - the caller of [get_current_user] sees the same 401 "Could not
    validate credentials"; the 401 with the [WWW-Authenticate] header that
    [verify_google_token] builds never leaves [get_current_user].  All in
    all it raises one of three HTTP errors, none with headers, or fails on
    a claim of the wrong type. *)
Theorem authentication_errors :
  forall e credentials,
    (forall x,
        Auth.verify_google_token e credentials = inl x ->
        Auth.get_current_user e credentials
        = inl (Auth.HTTPException 401 "Could not validate credentials"
                 None))
    /\ (forall x,
          Auth.get_current_user e credentials = inl x ->
          In x [Auth.HTTPException 401 "Could not validate credentials"
                  None;
                Auth.HTTPException 401 "Token missing email" None;
                Auth.HTTPException 403
                  "Access restricted to @appointy.com users" None;
                Auth.AttributeError;
                Auth.ValidationError]).
Proof.
  intros e credentials. unfold Auth.get_current_user. split.
  - intros x Hv. rewrite Hv. reflexivity.
  - intros x Hrun.
    destruct (Auth.verify_google_token e credentials) as [y|payload].
    { inversion Hrun; subst. cbn. auto. }
    destruct (negb match Auth.get payload "email" with
                   | Some v => Auth.truthy v
                   | None => false
                   end).
    { inversion Hrun; subst. cbn. auto. }
    destruct (Auth.get payload "email") as [[| | |address|]|];
      try (inversion Hrun; subst; cbn; tauto).
    destruct (negb (Auth.endswith address "@appointy.com")).
    { inversion Hrun; subst. cbn. auto. }
    destruct (Auth.optional_field e (Auth.get payload "name"));
      [|inversion Hrun; subst; cbn; tauto].
    destruct (Auth.optional_field e (Auth.get payload "picture"));
      [discriminate | inversion Hrun; subst; cbn; tauto].
Qed.

Lemma authentication_errors_witness :
  Auth.get_current_user (Auth.sample_env []) "forged"
  = inl (Auth.HTTPException 401 "Could not validate credentials" None).
Proof.
  destruct (authentication_errors (Auth.sample_env []) "forged")
    as [Hfail _].
  apply (Hfail (Auth.HTTPException 401 "Invalid authentication credentials"
                  (Some [("WWW-Authenticate", "Bearer")]))).
  reflexivity.
Defined.

(** ** Data migration *)

Section MigrateFacts.
Variable src : Migrate.sqlite.
Variable accepts : list Migrate.batch -> Migrate.batch -> bool.

Lemma migrate_lookup_all_length (d : Migrate.dict) (cols : list string) :
  forall vals,
    Migrate.lookup_all d cols = Some vals ->
    List.length vals = List.length cols.
Proof.
  induction cols as [|c cols IH]; intros vals Hall; cbn in Hall.
  - inversion Hall; reflexivity.
  - destruct (Migrate.get d c); [|discriminate].
    destruct (Migrate.lookup_all d cols); [|discriminate].
    inversion Hall; subst. cbn. f_equal. apply IH. reflexivity.
Qed.

(** A tuple built from a dictionary holds, under each column, the value
    the dictionary has for it. *)
Lemma migrate_lookup_all_get (d : Migrate.dict) (cols : list string)
    (key : string) (v : Migrate.value) :
  forall vals,
    Migrate.lookup_all d cols = Some vals ->
    Migrate.get (combine cols vals) key = Some v ->
    Migrate.get d key = Some v.
Proof.
  induction cols as [|c cols IH]; intros vals Hall Hget; cbn in Hall.
  - inversion Hall; subst. discriminate.
  - destruct (Migrate.get d c) as [x|] eqn:Hc; [|discriminate].
    destruct (Migrate.lookup_all d cols) as [xs|]; [|discriminate].
    inversion Hall; subst vals. cbn in Hget.
    destruct (String.eqb_spec c key) as [->|Hne].
    + congruence.
    + eapply IH; [reflexivity | exact Hget].
Qed.

(** The rows of a pass: the ids seen only grow, by ids of the rows of
    [meetings]; every tuple kept is a row of the pass. *)
Lemma migrate_process_rows_spec (s : string) (all cols : list string)
    (rows : list (list Migrate.value)) :
  forall valid values valid' out,
    Migrate.process_rows s all cols valid rows values = (valid', out) ->
    (forall id, In id valid' ->
       In id valid
       \/ (s = "meetings"
           /\ exists row, In row rows
                          /\ Migrate.get (combine all row) "id" = Some id))
    /\ (forall id, In id valid -> In id valid')
    /\ forall kept vals,
         out = Some kept ->
         In vals kept ->
         In vals values
         \/ exists row,
              In row rows
              /\ Migrate.lookup_all
                   (Migrate.convert_booleans s (combine all row)) cols
                 = Some vals
              /\ (existsb (String.eqb s) Migrate.dependent_tables = true ->
                  forall v,
                    Migrate.get (combine all row) "meeting_id" = Some v ->
                    Migrate.truthy v = true ->
                    existsb (Migrate.py_eq v) valid' = true).
Proof.
  induction rows as [|row rest IH]; intros valid values valid' out Hrun;
    cbn [Migrate.process_rows] in Hrun.
  - inversion Hrun; subst. repeat split; auto.
    intros kept vals Hk Hin. inversion Hk; subst. auto.
  - destruct (Migrate.process_row s all cols valid row) as [valid1 res]
      eqn:Hrow.
    unfold Migrate.process_row in Hrow.
    assert (Hcap : exists captured,
               (if String.eqb s "meetings"
                then option_map (fun v => v :: valid)
                       (Migrate.get (combine all row) "id")
                else Some valid) = captured) by eauto.
    destruct Hcap as [captured Hcap]. rewrite Hcap in Hrow.
    assert (Hgrow : forall valid2, captured = Some valid2 ->
              (forall id, In id valid2 ->
                 In id valid
                 \/ (s = "meetings"
                     /\ Migrate.get (combine all row) "id" = Some id))
              /\ (forall id, In id valid -> In id valid2)).
    { intros valid2 Hc. subst captured.
      destruct (String.eqb_spec s "meetings") as [->|Hne].
      - destruct (Migrate.get (combine all row) "id") as [x|];
          [|discriminate].
        inversion Hc; subst. split; intros id Hin; cbn in *; [|auto].
        destruct Hin as [<-|Hin]; auto.
      - inversion Hc; subst. split; auto. }
    destruct captured as [valid2|].
    2:{ inversion Hrow; subst. inversion Hrun; subst.
        repeat split; auto. intros kept vals Hk. discriminate. }
    destruct (Hgrow valid2 eq_refl) as [Hnew Hold].
    assert (Hlift : forall valid3 out3 values3,
              Migrate.process_rows s all cols valid2 rest values3
              = (valid3, out3) ->
              (forall id, In id valid3 ->
                 In id valid
                 \/ (s = "meetings"
                     /\ exists row0, In row0 (row :: rest)
                                     /\ Migrate.get (combine all row0) "id"
                                        = Some id))
              /\ (forall id, In id valid -> In id valid3)
              /\ (forall id, In id valid2 -> In id valid3)
              /\ forall kept vals,
                   out3 = Some kept -> In vals kept ->
                   In vals values3
                   \/ exists row0,
                        In row0 rest
                        /\ Migrate.lookup_all
                             (Migrate.convert_booleans s (combine all row0))
                             cols = Some vals
                        /\ (existsb (String.eqb s) Migrate.dependent_tables
                            = true ->
                            forall v,
                              Migrate.get (combine all row0) "meeting_id"
                              = Some v ->
                              Migrate.truthy v = true ->
                              existsb (Migrate.py_eq v) valid3 = true)).
    { intros valid3 out3 values3 Hrest.
      destruct (IH _ _ _ _ Hrest) as (Hids & Hmono & Hkept).
      repeat split; auto.
      intros id Hin. destruct (Hids id Hin) as [Hin2|(Hs & row0 & Hr & Hg)].
      - destruct (Hnew id Hin2) as [|[Hs Hg]]; [auto|].
        right. split; [exact Hs|]. exists row. split; [left|]; auto.
      - right. split; [exact Hs|]. exists row0. split; [right|]; auto. }
    destruct (existsb (String.eqb s) Migrate.dependent_tables
              && match Migrate.get (combine all row) "meeting_id" with
                 | Some v =>
                     Migrate.truthy v
                     && negb (existsb (Migrate.py_eq v) valid2)
                 | None => false
                 end) eqn:Horphan.
    + inversion Hrow; subst valid1 res.
      destruct (Hlift _ _ _ Hrun) as (Hids & Hmono & _ & Hkept).
      repeat split; auto.
      intros kept vals Hk Hin.
      destruct (Hkept kept vals Hk Hin) as [|(row0 & Hr & Hrest)]; [auto|].
      right. exists row0. split; [right; exact Hr | exact Hrest].
    + destruct (Migrate.lookup_all
                  (Migrate.convert_booleans s (combine all row)) cols)
        as [vs|] eqn:Hvals.
      2:{ inversion Hrow; subst. inversion Hrun; subst.
          split; [|split; [exact Hold|]].
          - intros id Hin. destruct (Hnew id Hin) as [|[Hs Hg]]; [auto|].
            right. split; [exact Hs|]. exists row. split; [left|]; auto.
          - intros kept vals Hk. discriminate. }
      inversion Hrow; subst valid1 res.
      destruct (Hlift _ _ _ Hrun) as (Hids & Hmono & Hmono2 & Hkept).
      repeat split; auto.
      intros kept vals Hk Hin.
      destruct (Hkept kept vals Hk Hin) as [Hhere|(row0 & Hr & Hrest)].
      * apply in_app_or in Hhere. destruct Hhere as [|[<-|[]]]; [auto|].
        right. exists row. split; [left; reflexivity|].
        split; [exact Hvals|].
        intros Hdep v Hv Htruthy. rewrite Hdep, Hv, Htruthy in Horphan.
        cbn in Horphan. apply negb_false_iff in Horphan.
        apply existsb_exists in Horphan.
        destruct Horphan as (id & Hid & Heq).
        apply existsb_exists. exists id. split; [apply Hmono2; exact Hid|].
        exact Heq.
      * right. exists row0. split; [right; exact Hr | exact Hrest].
Qed.

Lemma migrate_table_step_inserted (st : Migrate.state) (s t : string)
    (valid' : list Migrate.value) (b : Migrate.batch) :
  Migrate.table_step src accepts st (s, t) = (valid', Migrate.Inserted b) ->
  Migrate.target b = t
  /\ Migrate.tuples b <> []
  /\ exists rs,
       src s = Some rs
       /\ Migrate.batch_columns b
          = Migrate.insert_columns s (Migrate.columns rs)
       /\ Migrate.process_rows s (Migrate.columns rs)
            (Migrate.batch_columns b) (Migrate.valid_meeting_ids st)
            (Migrate.rows rs) []
          = (valid', Some (Migrate.tuples b)).
Proof.
  unfold Migrate.table_step. intros Hstep.
  destruct (src s) as [rs|]; [|discriminate].
  destruct (Migrate.rows rs) as [|row0 rest] eqn:Hrows; [discriminate|].
  destruct (Migrate.process_rows s (Migrate.columns rs)
              (Migrate.insert_columns s (Migrate.columns rs))
              (Migrate.valid_meeting_ids st) (row0 :: rest) [])
    as [valid1 [[|v vs]|]] eqn:Hrun; try discriminate.
  destruct (accepts (Migrate.pending st) _); [|discriminate].
  inversion Hstep; subst. cbn.
  split; [reflexivity|]. split; [discriminate|].
  exists rs. rewrite Hrows. auto.
Qed.

(** The ids seen after a pass: those seen before, and for [meetings] ids
    of its rows. *)
Lemma migrate_table_step_ids (st : Migrate.state) (s t : string)
    (valid' : list Migrate.value) (out : Migrate.table_outcome) :
  Migrate.table_step src accepts st (s, t) = (valid', out) ->
  forall id,
    In id valid' ->
    In id (Migrate.valid_meeting_ids st)
    \/ (s = "meetings" /\ Migrate.known_meeting src id).
Proof.
  unfold Migrate.table_step. intros Hstep id Hin.
  destruct (src s) as [rs|] eqn:Hsrc; [|inversion Hstep; subst; auto].
  destruct (Migrate.rows rs) as [|row0 rest] eqn:Hrows;
    [inversion Hstep; subst; auto|].
  destruct (Migrate.process_rows s (Migrate.columns rs)
              (Migrate.insert_columns s (Migrate.columns rs))
              (Migrate.valid_meeting_ids st) (row0 :: rest) [])
    as [valid1 res] eqn:Hrun.
  assert (valid1 = valid').
  { destruct res as [[|v vs]|]; try (inversion Hstep; reflexivity).
    destruct (accepts (Migrate.pending st) _); inversion Hstep;
      reflexivity. }
  subst valid1.
  destruct (migrate_process_rows_spec _ _ _ _ _ _ _ _ Hrun) as (Hids & _).
  destruct (Hids id Hin) as [|(Hs & row & Hrow & Hget)]; [auto|].
  right. split; [exact Hs|]. subst s.
  exists rs, row. rewrite Hrows. auto.
Qed.

Lemma migrate_table_keeps_invariant (st : Migrate.state)
    (entry : string * string) :
  In entry Migrate.tables_map ->
  Migrate.loop_invariant src st ->
  Migrate.loop_invariant src (Migrate.migrate_table src accepts st entry).
Proof.
  intros Hentry [Hvalid Hpending].
  assert (Hshape : Migrate.entry_shape entry = true).
  { assert (Hall : forallb Migrate.entry_shape Migrate.tables_map = true)
      by reflexivity.
    rewrite forallb_forall in Hall. apply Hall. exact Hentry. }
  destruct entry as [s t]. unfold Migrate.migrate_table.
  destruct (Migrate.table_step src accepts st (s, t)) as [valid' out]
    eqn:Hstep.
  assert (Hvalid' : forall id, In id valid' -> Migrate.known_meeting src id).
  { intros id Hin.
    destruct (migrate_table_step_ids _ _ _ _ _ Hstep id Hin) as [|[_ Hk]];
      auto. }
  destruct out as [|b|]; split; cbn; auto; try contradiction.
  intros b' Hin. apply in_app_or in Hin.
  destruct Hin as [Hin|[<-|[]]]; [auto|].
  destruct (migrate_table_step_inserted _ _ _ _ _ Hstep)
    as (Htarget & Hsome & rs & Hsrc & Hcols & Hrun).
  destruct (migrate_process_rows_spec _ _ _ _ _ _ _ _ Hrun)
    as (Hids & _ & Hkept).
  split.
  - exists s, rs. rewrite Htarget. repeat split; auto.
    intros vals Hvals.
    destruct (Hkept _ vals eq_refl Hvals) as [[]|(row & Hrow & Hall & _)].
    exists row. split; assumption.
  - intros Hdep vals v Hvals Hget Htruthy.
    unfold Migrate.entry_shape in Hshape. rewrite Htarget in Hdep.
    assert (Hmem : existsb (String.eqb t) Migrate.dependent_targets = true).
    { apply existsb_exists. exists t. split; [exact Hdep|].
      apply String.eqb_refl. }
    rewrite Hmem in Hshape. cbn [negb orb] in Hshape.
    apply andb_true_iff in Hshape. destruct Hshape as [Hnot Hshape].
    rewrite orb_false_r in Hnot. apply negb_true_iff in Hnot.
    apply andb_true_iff in Hshape. destruct Hshape as [Hsdep Hkeys].
    apply negb_true_iff in Hkeys.
    destruct (Hkept _ vals eq_refl Hvals)
      as [[]|(row & Hrow & Hall & Hfilter)].
    unfold Migrate.convert_booleans in Hall. rewrite Hkeys in Hall.
    pose proof (migrate_lookup_all_get _ _ _ _ _ Hall Hget) as Hsource.
    specialize (Hfilter Hsdep v Hsource Htruthy).
    apply existsb_exists in Hfilter. destruct Hfilter as (id & Hid & Heq).
    exists id. split; [apply Hvalid'; exact Hid | exact Heq].
Qed.

Lemma migrate_run_tables_invariant (tables : list (string * string)) :
  forall st,
    (forall entry, In entry tables -> In entry Migrate.tables_map) ->
    Migrate.loop_invariant src st ->
    Migrate.loop_invariant src (Migrate.run_tables src accepts tables st).
Proof.
  induction tables as [|entry rest IH]; intros st Hsub Hinv; cbn;
    [exact Hinv|].
  apply IH; [intros e He; apply Hsub; right; exact He|].
  apply migrate_table_keeps_invariant; [apply Hsub; left; reflexivity|].
  exact Hinv.
Qed.

Lemma migrate_data_invariant :
  forall b,
    In b (Migrate.migrate_data src accepts) ->
    Migrate.from_source src b
    /\ (In (Migrate.target b) Migrate.dependent_targets ->
        Migrate.no_orphans src b).
Proof.
  unfold Migrate.migrate_data.
  apply (migrate_run_tables_invariant Migrate.tables_map); [auto|].
  split; cbn; intros; contradiction.
Qed.

(** After the passes for [tables], a pending batch was pending before or
    targets one of these tables. *)
Lemma migrate_pending_targets (tables : list (string * string)) :
  forall st b,
    In b (Migrate.pending (Migrate.run_tables src accepts tables st)) ->
    In b (Migrate.pending st) \/ In (Migrate.target b) (map snd tables).
Proof.
  induction tables as [|[s t] rest IH]; intros st b Hin; cbn in *;
    [auto|].
  destruct (IH _ _ Hin) as [Hhere|Hlater]; [|auto].
  unfold Migrate.migrate_table in Hhere.
  destruct (Migrate.table_step src accepts st (s, t)) as [valid' out]
    eqn:Hstep.
  destruct out as [|b'|]; cbn in Hhere; [auto| |contradiction].
  apply in_app_or in Hhere. destruct Hhere as [|[<-|[]]]; [auto|].
  right. left.
  destruct (migrate_table_step_inserted _ _ _ _ _ Hstep) as [Ht _].
  symmetry. exact Ht.
Qed.
End MigrateFacts.

Lemma migrate_source_of_target (s t : string) :
  In (s, t) Migrate.tables_map ->
  (t = "transcript_segments" -> s = "transcripts")
  /\ (t = "user_api_keys" -> s = "user_api_keys").
Proof.
  intros Hin. cbn in Hin.
  repeat (destruct Hin as [Hin|Hin];
          [inversion Hin; subst; split; intros; (reflexivity || discriminate)
          |]).
  contradiction.
Qed.

Lemma migrate_remove_first_nodup (x : string) (l : list string) :
  NoDup l -> ~ In x (Migrate.remove_first x l).
Proof.
  induction 1 as [|y l Hy _ IH]; cbn; [auto|].
  destruct (String.eqb_spec y x) as [->|Hne]; [exact Hy|].
  intros [Heq|Hin]; [congruence | exact (IH Hin)].
Qed.

Lemma migrate_insert_columns_transcripts (cols : list string) :
  Migrate.insert_columns "transcripts" cols
  = if existsb (String.eqb "id") cols
    then Migrate.remove_first "id" cols
    else cols.
Proof. reflexivity. Qed.

Lemma migrate_get_set_key (d : Migrate.dict) (key : string)
    (v : Migrate.value) :
  Migrate.get (Migrate.set_key d key v) key
  = option_map (fun _ => v) (Migrate.get d key).
Proof.
  induction d as [|[k x] d IH]; cbn; [reflexivity|].
  destruct (String.eqb_spec k key) as [->|Hne]; cbn.
  - rewrite String.eqb_refl. reflexivity.
  - destruct (String.eqb_spec k key); [contradiction | exact IH].
Qed.

Lemma migrate_run_tables_app (src : Migrate.sqlite)
    (accepts : list Migrate.batch -> Migrate.batch -> bool)
    (pre post : list (string * string)) (entry : string * string)
    (st : Migrate.state) :
  Migrate.run_tables src accepts (pre ++ entry :: post) st
  = Migrate.run_tables src accepts post
      (Migrate.migrate_table src accepts
         (Migrate.run_tables src accepts pre st) entry).
Proof. unfold Migrate.run_tables. rewrite fold_left_app. reflexivity. Qed.

(** X12: one failure undoes the tables before it.  If the pass for a
    table ends in a rollback - a row raises or Postgres rejects the
    insert - every insert made for the tables before it is rolled back
    with it: what the final commit stores belongs to the tables after the
    failing one only. *)
Theorem migrate_failure_discards_earlier_tables :
  forall src accepts pre entry post valid',
    Migrate.tables_map = pre ++ entry :: post ->
    Migrate.table_step src accepts
      (Migrate.run_tables src accepts pre
         {| Migrate.valid_meeting_ids := []; Migrate.pending := [] |})
      entry
    = (valid', Migrate.RolledBack) ->
    forall b,
      In b (Migrate.migrate_data src accepts) ->
      In (Migrate.target b) (map snd post).
Proof.
  intros src accepts pre entry post valid' Hmap Hstep b Hin.
  unfold Migrate.migrate_data in Hin.
  rewrite Hmap, migrate_run_tables_app in Hin.
  apply migrate_pending_targets in Hin.
  destruct Hin as [Hin|Hin]; [|exact Hin].
  unfold Migrate.migrate_table in Hin. rewrite Hstep in Hin.
  contradiction.
Qed.

(** Postgres rejects the transcripts: the meeting inserted before them is
    not committed either. *)
Lemma migrate_failure_discards_earlier_tables_witness :
  ~ In {| Migrate.target := "meetings";
          Migrate.batch_columns := ["id"; "title"];
          Migrate.tuples := [[Migrate.Text "m1"; Migrate.Text "Standup"]] |}
       (Migrate.migrate_data Migrate.sample Migrate.reject_transcripts).
Proof.
  intros Hin.
  apply (migrate_failure_discards_earlier_tables Migrate.sample
           Migrate.reject_transcripts
           (firstn 5 Migrate.tables_map)
           ("transcripts", "transcript_segments")
           (skipn 6 Migrate.tables_map)
           [Migrate.Text "m1"]) in Hin.
  - cbn in Hin. repeat (destruct Hin as [Hin|Hin]; [discriminate|]).
    exact Hin.
  - reflexivity.
  - vm_compute. reflexivity.
Defined.

(** X13: no orphan is migrated.  In every batch committed for a dependent
    table (transcript segments, summary processes, full transcripts,
    meeting permissions), a tuple whose [meeting_id] is true names the id
    of a row of the SQLite table [meetings]. *)
Theorem migrate_filters_orphans :
  forall src accepts b vals v,
    In b (Migrate.migrate_data src accepts) ->
    In (Migrate.target b) Migrate.dependent_targets ->
    In vals (Migrate.tuples b) ->
    Migrate.get (combine (Migrate.batch_columns b) vals) "meeting_id"
    = Some v ->
    Migrate.truthy v = true ->
    exists id, Migrate.known_meeting src id /\ Migrate.py_eq v id = true.
Proof.
  intros src accepts b vals v Hin Hdep Hvals Hget Htruthy.
  destruct (migrate_data_invariant src accepts b Hin) as [_ Horphans].
  exact (Horphans Hdep vals v Hvals Hget Htruthy).
Qed.

Lemma migrate_filters_orphans_witness :
  exists id,
    Migrate.known_meeting Migrate.sample id
    /\ Migrate.py_eq (Migrate.Text "m1") id = true.
Proof.
  apply (migrate_filters_orphans Migrate.sample Migrate.accept_all
           {| Migrate.target := "transcript_segments";
              Migrate.batch_columns := ["meeting_id"; "transcript"];
              Migrate.tuples :=
                [[Migrate.Text "m1"; Migrate.Text "hello"]] |}
           [Migrate.Text "m1"; Migrate.Text "hello"] (Migrate.Text "m1")).
  - vm_compute. right. right. left. reflexivity.
  - cbn. auto.
  - left. reflexivity.
  - reflexivity.
  - reflexivity.
Defined.

(** X14: nothing is invented.  Every committed batch goes to the target
    of a source table of [tables_map] and is never empty; its columns are
    the columns of that table ([id] left out for the transcripts, so that
    Postgres numbers them); every tuple has one value per column, the
    values of one source row in column order. *)
Theorem migrate_batches_come_from_source :
  forall src accepts b,
    In b (Migrate.migrate_data src accepts) ->
    Migrate.from_source src b
    /\ Forall (fun vals =>
                 List.length vals = List.length (Migrate.batch_columns b))
              (Migrate.tuples b)
    /\ (Migrate.target b = "transcript_segments" ->
        forall rs,
          src "transcripts" = Some rs ->
          NoDup (Migrate.columns rs) ->
          ~ In "id" (Migrate.batch_columns b)).
Proof.
  intros src accepts b Hin.
  destruct (migrate_data_invariant src accepts b Hin) as [Hfrom _].
  split; [exact Hfrom|].
  destruct Hfrom as (s & rs & Hentry & Hsrc & Hcols & Hsome & Hrows).
  split.
  - apply Forall_forall. intros vals Hvals.
    destruct (Hrows vals Hvals) as (row & _ & Hall).
    eapply migrate_lookup_all_length. exact Hall.
  - intros Htarget rs' Hsrc' Hnodup.
    destruct (migrate_source_of_target s _ Hentry) as [Hs _].
    specialize (Hs Htarget). subst s.
    assert (rs' = rs) by congruence. subst rs'.
    rewrite Hcols, migrate_insert_columns_transcripts.
    destruct (existsb (String.eqb "id") (Migrate.columns rs)) eqn:Hid.
    + apply migrate_remove_first_nodup. exact Hnodup.
    + intros Hin'. assert (Hex : existsb (String.eqb "id")
                                   (Migrate.columns rs) = true).
      { apply existsb_exists. exists "id". split; [exact Hin'|].
        reflexivity. }
      congruence.
Qed.

Lemma migrate_batches_come_from_source_witness :
  ~ In "id"
      (Migrate.batch_columns
         {| Migrate.target := "transcript_segments";
            Migrate.batch_columns := ["meeting_id"; "transcript"];
            Migrate.tuples :=
              [[Migrate.Text "m1"; Migrate.Text "hello"]] |}).
Proof.
  destruct (migrate_batches_come_from_source Migrate.sample
              Migrate.accept_all
              {| Migrate.target := "transcript_segments";
                 Migrate.batch_columns := ["meeting_id"; "transcript"];
                 Migrate.tuples :=
                   [[Migrate.Text "m1"; Migrate.Text "hello"]] |})
    as (_ & _ & Hid).
  - vm_compute. right. right. left. reflexivity.
  - apply (Hid eq_refl
             {| Migrate.columns := ["id"; "meeting_id"; "transcript"];
                Migrate.rows :=
                  [[Migrate.Int 1; Migrate.Text "m1"; Migrate.Text "hello"];
                   [Migrate.Int 2; Migrate.Text "gone";
                    Migrate.Text "orphan"]] |}).
    + reflexivity.
    + repeat constructor; cbn; intuition discriminate.
Defined.

(** X15: [is_active] reaches Postgres as a boolean.  In every batch
    committed for [user_api_keys], the value under [is_active] is
    [bool(x)] for the value [x] of a source row: false for 0, NULL and the
    empty string, true otherwise. *)
Theorem migrate_is_active_boolean :
  forall src accepts b vals v,
    In b (Migrate.migrate_data src accepts) ->
    Migrate.target b = "user_api_keys" ->
    In vals (Migrate.tuples b) ->
    Migrate.get (combine (Migrate.batch_columns b) vals) "is_active"
    = Some v ->
    exists rs row x,
      src "user_api_keys" = Some rs
      /\ In row (Migrate.rows rs)
      /\ Migrate.get (combine (Migrate.columns rs) row) "is_active" = Some x
      /\ v = Migrate.Boolean (Migrate.truthy x).
Proof.
  intros src accepts b vals v Hin Htarget Hvals Hget.
  destruct (migrate_data_invariant src accepts b Hin) as [Hfrom _].
  destruct Hfrom as (s & rs & Hentry & Hsrc & Hcols & Hsome & Hrows).
  destruct (migrate_source_of_target s _ Hentry) as [_ Hs].
  specialize (Hs Htarget). subst s.
  destruct (Hrows vals Hvals) as (row & Hrow & Hall).
  pose proof (migrate_lookup_all_get _ _ _ _ _ Hall Hget) as Hconv.
  unfold Migrate.convert_booleans in Hconv.
  change ("user_api_keys" =? "user_api_keys")%string with true in Hconv.
  destruct (Migrate.get (combine (Migrate.columns rs) row) "is_active")
    as [x|] eqn:Hx; [|congruence].
  rewrite migrate_get_set_key, Hx in Hconv. cbn in Hconv.
  exists rs, row, x. repeat split; auto. congruence.
Qed.

Lemma migrate_is_active_boolean_witness :
  exists rs row x,
    Migrate.sample "user_api_keys" = Some rs
    /\ In row (Migrate.rows rs)
    /\ Migrate.get (combine (Migrate.columns rs) row) "is_active" = Some x
    /\ Migrate.Boolean true = Migrate.Boolean (Migrate.truthy x).
Proof.
  apply (migrate_is_active_boolean Migrate.sample Migrate.accept_all
           {| Migrate.target := "user_api_keys";
              Migrate.batch_columns :=
                ["user_email"; "provider"; "is_active"];
              Migrate.tuples :=
                [[Migrate.Text "ada@appointy.com"; Migrate.Text "groq";
                  Migrate.Boolean true]] |}
           [Migrate.Text "ada@appointy.com"; Migrate.Text "groq";
            Migrate.Boolean true]).
  - vm_compute. right. left. reflexivity.
  - reflexivity.
  - left. reflexivity.
  - reflexivity.
Defined.
